(** * Go-Rate-Limiter: a fixed-window, per-client request limiter

    Shallow embedding of [rate_limiter.go] (the limiter state and its
    operations), [middleware.go] (the admission gate and the client
    address resolver) and [main.go] (the protected handler and the
    handler registered with the server), followed by the properties
    proved about them.

    Conventions.
    - A Go [int] is a 64-bit two's complement integer; it is modelled as a
      [Z] together with the wrap-around [wrap_int] applied wherever the Go
      code does arithmetic.
    - [map[string]int] is a [gmap string Z]; reading an absent key yields
      the zero value, as in Go.
    - Every method of the limiter runs between [Mutex.Lock] and the deferred
      [Mutex.Unlock]; in the sequential model each call is therefore one
      atomic transition.  Module [Concurrent] further down splits a call in
      its program points and models the mutex explicitly. *)

From stdpp Require Import base tactics option list gmap strings fin_maps.
From Stdlib Require Import ZArith Lia Ascii.

Local Open Scope Z_scope.

(** ** Machine integers *)

Definition int_bits : Z := 64.
Definition min_int : Z := - 2 ^ (int_bits - 1).
Definition max_int : Z := 2 ^ (int_bits - 1) - 1.

(** The values a Go [int] can hold. *)
Definition is_int (z : Z) : Prop := min_int <= z <= max_int.

(** Two's complement wrap-around of an arithmetic result. *)
Definition wrap_int (z : Z) : Z :=
  (z - min_int) mod 2 ^ int_bits + min_int.

(** ** Go run-time outcomes: a value, or a panic with its message *)

Inductive result (A : Type) : Type :=
| Ok (a : A)
| Panic (msg : string).
Arguments Ok {A} a.
Arguments Panic {A} msg.

(** ** rate_limiter.go *)

(** [type RateLimiter struct].  The [Mutex] field carries no data of its
    own: it is the serialisation of the operations (see above). *)
Record RateLimiter : Type := mkRateLimiter {
  Requests : gmap string Z;
  MaxRequests : Z;
  WindowDuration : Z
}.

(** The states that Go's types allow: every stored integer fits an [int]. *)
Definition well_typed (rl : RateLimiter) : Prop :=
  is_int (MaxRequests rl) /\ is_int (WindowDuration rl) /\
  map_Forall (fun _ v => is_int v) (Requests rl).

(** [rl.Requests[ip]]: a map read, with Go's zero value for a missing key. *)
Definition count_of (rl : RateLimiter) (ip : string) : Z :=
  default 0 (Requests rl !! ip).

(** [time.NewTicker(d)] of the Go standard library: it panics when [d] is
    not positive, and otherwise returns a ticker of period [d]. *)
Definition NewTicker (d : Z) : result Z :=
  if d <=? 0 then Panic "non-positive interval for NewTicker" else Ok d.

(** [startResetTicker]: creates the ticker; the goroutine it spawns then
    performs one [resetTick] per tick, for ever.  The function itself
    leaves the limiter as it is. *)
Definition startResetTicker (rl : RateLimiter) : result RateLimiter :=
  match NewTicker (WindowDuration rl) with
  | Ok _ => Ok rl
  | Panic msg => Panic msg
  end.

(** The body of the goroutine's loop:
    [rl.Mutex.Lock(); rl.Requests = make(map[string]int); rl.Mutex.Unlock()]. *)
Definition resetTick (rl : RateLimiter) : RateLimiter :=
  mkRateLimiter ∅ (MaxRequests rl) (WindowDuration rl).

(** [NewRateLimiter(maxRequests, windowDuration)]. *)
Definition NewRateLimiter (maxRequests windowDuration : Z) : result RateLimiter :=
  let rl := mkRateLimiter ∅ maxRequests windowDuration in
  startResetTicker rl.

(** [AllowRequest(ip)]: the returned boolean and the limiter afterwards. *)
Definition AllowRequest (rl : RateLimiter) (ip : string) : bool * RateLimiter :=
  let currentCount := count_of rl ip in
  if currentCount >=? MaxRequests rl then (false, rl)
  else
    (true,
     mkRateLimiter (<[ip := wrap_int (currentCount + 1)]> (Requests rl))
                   (MaxRequests rl) (WindowDuration rl)).

(** [GetRemainingRequests(ip)]: it only reads the limiter. *)
Definition GetRemainingRequests (rl : RateLimiter) (ip : string) : Z :=
  let currentCount := count_of rl ip in
  let remaining := wrap_int (MaxRequests rl - currentCount) in
  if remaining <? 0 then 0 else remaining.

(** ** Histories of serialised operations *)

(** What can happen to a limiter after construction: a request handler
    calls one of the two methods, or the ticker goroutine fires. *)
Inductive op : Type :=
| CallAllow (ip : string)
| CallRemaining (ip : string)
| Tick.

Inductive outcome : Type :=
| RetBool (b : bool)
| RetInt (n : Z)
| RetNone.

Definition step (o : op) (rl : RateLimiter) : outcome * RateLimiter :=
  match o with
  | CallAllow ip => let '(b, rl') := AllowRequest rl ip in (RetBool b, rl')
  | CallRemaining ip => (RetInt (GetRemainingRequests rl ip), rl)
  | Tick => (RetNone, resetTick rl)
  end.

(** State after a history. *)
Fixpoint exec (ops : list op) (rl : RateLimiter) : RateLimiter :=
  match ops with
  | [] => rl
  | o :: ops' => exec ops' (snd (step o rl))
  end.

(** Outcomes of a history, in order. *)
Fixpoint outcomes (ops : list op) (rl : RateLimiter) : list outcome :=
  match ops with
  | [] => []
  | o :: ops' => fst (step o rl) :: outcomes ops' (snd (step o rl))
  end.

Definition is_tick (o : op) : bool :=
  match o with Tick => true | _ => false end.

(** A history that lies within one window. *)
Definition one_window (ops : list op) : bool := forallb (fun o => negb (is_tick o)) ops.

Definition is_allow_of (ip : string) (o : op) : bool :=
  match o with CallAllow ip' => bool_decide (ip' = ip) | _ => false end.

(** Number of [AllowRequest(ip)] calls in a history. *)
Fixpoint allow_calls (ip : string) (ops : list op) : Z :=
  match ops with
  | [] => 0
  | o :: ops' => (if is_allow_of ip o then 1 else 0) + allow_calls ip ops'
  end.

(** Limiter states that a program can reach: built by [NewRateLimiter] from
    two Go integers, then driven by any history. *)
Inductive reachable : RateLimiter -> Prop :=
| reach_new maxRequests windowDuration rl :
    is_int maxRequests -> is_int windowDuration ->
    NewRateLimiter maxRequests windowDuration = Ok rl ->
    reachable rl
| reach_step o rl :
    reachable rl -> reachable (snd (step o rl)).

(** ** main.go: the configuration of the server *)

Definition maxRequestsPerMinute : Z := 5.

(** [1 * time.Minute], in nanoseconds. *)
Definition rateLimitWindow : Z := 60000000000.

(** The limiter that [main] gets from
    [NewRateLimiter(maxRequestsPerMinute, rateLimitWindow)]. *)
Definition mainLimiter : RateLimiter :=
  mkRateLimiter ∅ maxRequestsPerMinute rateLimitWindow.

(** Every identifier present in the table has a count between 1 and the
    limit. *)
Definition counts_bounded (rl : RateLimiter) : Prop :=
  map_Forall (fun _ v => 1 <= v <= MaxRequests rl) (Requests rl).

(** ** Strings and headers of the Go standard library used by middleware.go *)

(** Go strings are byte sequences; so are Rocq's. *)
Definition byte_val (c : ascii) : Z := Z.of_N (Ascii.N_of_ascii c).
Definition byte_chr (b : Z) : ascii := Ascii.ascii_of_N (Z.to_N b).

Fixpoint bytes_str (bs : list Z) : string :=
  match bs with
  | [] => EmptyString
  | b :: bs' => String (byte_chr b) (bytes_str bs')
  end.

Fixpoint drop_str (n : nat) (s : string) : string :=
  match n, s with
  | O, _ => s
  | S n', String _ s' => drop_str n' s'
  | S _, EmptyString => EmptyString
  end.

(** [s[:n]] for [0 <= n <= len(s)]. *)
Fixpoint take_str (n : nat) (s : string) : string :=
  match n, s with
  | S n', String c s' => String c (take_str n' s')
  | _, _ => EmptyString
  end.

(** The code points of [unicode.White_Space], as ranges. *)
Definition White_Space : list (Z * Z) :=
  [ (0x0009, 0x000d); (0x0020, 0x0020); (0x0085, 0x0085); (0x00a0, 0x00a0);
    (0x1680, 0x1680); (0x2000, 0x200a); (0x2028, 0x2029); (0x202f, 0x202f);
    (0x205f, 0x205f); (0x3000, 0x3000) ].

(** [utf8.EncodeRune] for the code points below [0x10000] that are not
    surrogates (all of [White_Space] is). *)
Definition EncodeRune (r : Z) : string :=
  if r <? 0x80 then bytes_str [r]
  else if r <? 0x800 then
    bytes_str [Z.lor 0xC0 (Z.shiftr r 6); Z.lor 0x80 (Z.land r 0x3F)]
  else
    bytes_str [Z.lor 0xE0 (Z.shiftr r 12);
               Z.lor 0x80 (Z.land (Z.shiftr r 6) 0x3F);
               Z.lor 0x80 (Z.land r 0x3F)].

Definition range_runes (lohi : Z * Z) : list Z :=
  let '(lo, hi) := lohi in
  map (fun i => lo + Z.of_nat i) (seq 0 (Z.to_nat (hi - lo + 1))).

(** The UTF-8 encodings of the white space code points. *)
Definition space_encodings : list string :=
  Eval vm_compute in map EncodeRune (flat_map range_runes White_Space).

(** Removes one of the patterns from the front of [s], if one is there. *)
Fixpoint strip_one (pats : list string) (s : string) : option string :=
  match pats with
  | [] => None
  | p :: pats' =>
      if String.prefix p s then Some (drop_str (String.length p) s)
      else strip_one pats' s
  end.

Fixpoint strip_all (fuel : nat) (pats : list string) (s : string) : string :=
  match fuel with
  | O => s
  | S fuel' =>
      match strip_one pats s with
      | Some s' => strip_all fuel' pats s'
      | None => s
      end
  end.

(** Leading white space removed.  Go decodes the string rune by rune; a
    white space code point is decoded at a position exactly when its
    encoding starts there. *)
Definition TrimLeftSpace (s : string) : string :=
  strip_all (String.length s) space_encodings s.

(** Trailing white space removed (the same, from the other end). *)
Definition TrimRightSpace (s : string) : string :=
  String.rev
    (strip_all (String.length s) (map String.rev space_encodings) (String.rev s)).

(** [strings.TrimSpace(s)]: [s] without its leading and trailing white
    space, as defined by Unicode. *)
Definition TrimSpace (s : string) : string := TrimRightSpace (TrimLeftSpace s).

(** [strings.Split(s, sep)] for a separator of one byte: the pieces of [s]
    between the separators, in order; there is always at least one piece. *)
Fixpoint Split (s : string) (sep : ascii) : list string :=
  match s with
  | EmptyString => [EmptyString]
  | String c s' =>
      if bool_decide (c = sep) then EmptyString :: Split s' sep
      else
        match Split s' sep with
        | piece :: pieces => String c piece :: pieces
        | [] => [String c EmptyString]
        end
  end.

(** [strings.LastIndex(s, substr)]: the byte index of the last occurrence
    of [substr] in [s], or [-1].  [pos] is the index of the head of [s]. *)
Fixpoint LastIndex_from (pos : Z) (s substr : string) : Z :=
  match s with
  | EmptyString => if String.prefix substr EmptyString then pos else -1
  | String _ s' =>
      let later := LastIndex_from (pos + 1) s' substr in
      if later >=? 0 then later
      else if String.prefix substr s then pos else -1
  end.

Definition LastIndex (s substr : string) : Z := LastIndex_from 0 s substr.

(** [validHeaderFieldByte] of net/textproto: the token characters. *)
Definition validHeaderFieldByte (c : ascii) : bool :=
  let b := byte_val c in
  ((0x30 <=? b) && (b <=? 0x39)) || ((0x61 <=? b) && (b <=? 0x7a))
  || ((0x41 <=? b) && (b <=? 0x5a))
  || bool_decide (b ∈ [0x21; 0x23; 0x24; 0x25; 0x26; 0x27; 0x2a; 0x2b; 0x2d;
                       0x2e; 0x5e; 0x5f; 0x60; 0x7c; 0x7e]).

Fixpoint all_bytes (P : ascii -> bool) (s : string) : bool :=
  match s with
  | EmptyString => true
  | String c s' => P c && all_bytes P s'
  end.

Fixpoint canonical_go (upper : bool) (s : string) : string :=
  match s with
  | EmptyString => EmptyString
  | String c s' =>
      let b := byte_val c in
      let b' :=
        if upper && (0x61 <=? b) && (b <=? 0x7a) then b - 0x20
        else if negb upper && (0x41 <=? b) && (b <=? 0x5a) then b + 0x20
        else b in
      String (byte_chr b') (canonical_go (b' =? 0x2d) s')
  end.

(** [textproto.CanonicalMIMEHeaderKey]: first letter and every letter after
    a hyphen in upper case, the others in lower case; a key with a byte
    that is not a token character is returned as it is. *)
Definition CanonicalMIMEHeaderKey (s : string) : string :=
  if all_bytes validHeaderFieldByte s then canonical_go true s else s.

(** [http.Header], a [map[string][]string] with canonical keys. *)
Abbreviation Header_t := (gmap string (list string)).

(** [h.Get(key)]: the first value under the canonical form of [key], or the
    empty string. *)
Definition Header_Get (h : Header_t) (key : string) : string :=
  match h !! CanonicalMIMEHeaderKey key with
  | Some (v :: _) => v
  | _ => EmptyString
  end.

(** [h.Set(key, value)]. *)
Definition Header_Set (h : Header_t) (key value : string) : Header_t :=
  <[CanonicalMIMEHeaderKey key := [value]]> h.

(** The fields of [http.Request] that the program reads. *)
Record Request : Type := mkRequest {
  Method : string;
  Header : Header_t;
  RemoteAddr : string
}.

(** ** middleware.go *)

Definition getClientIP (r : Request) : string :=
  let forwarded := Header_Get (Header r) "X-Forwarded-For" in
  let after_forwarded :=
    let realIP := Header_Get (Header r) "X-Real-IP" in
    if negb (bool_decide (realIP = EmptyString)) then TrimSpace realIP
    else
      let ip := RemoteAddr r in
      let idx := LastIndex ip ":" in
      if negb (idx =? -1) then take_str (Z.to_nat idx) ip else ip in
  if negb (bool_decide (forwarded = EmptyString)) then
    match Split forwarded ","%char with
    | ip0 :: _ => TrimSpace ip0
    | [] => after_forwarded
    end
  else after_forwarded.

(** *** The resolution policy in the words of the specification *)

Fixpoint has_byte (c : ascii) (s : string) : bool :=
  match s with
  | EmptyString => false
  | String c' s' => bool_decide (c' = c) || has_byte c s'
  end.

(** Strings that consist of the given pieces only. *)
Inductive made_of (pats : list string) : string -> Prop :=
| made_of_nil : made_of pats EmptyString
| made_of_cons p s : p ∈ pats -> made_of pats s -> made_of pats (p +:+ s).

(** [s] is white space and nothing else. *)
Definition white (s : string) : Prop := made_of space_encodings s.

(** [s] begins, respectively ends, with a white space code point. *)
Definition leading_space (s : string) : Prop :=
  exists p rest, p ∈ space_encodings /\ s = p +:+ rest.
Definition trailing_space (s : string) : Prop :=
  exists p rest, p ∈ space_encodings /\ s = rest +:+ p.

(** [t] is [s] trimmed of white space: what is left of [s] without the
    white space at its two ends. *)
Definition trimmed_of (s t : string) : Prop :=
  (exists l r, s = l +:+ t +:+ r /\ white l /\ white r)
  /\ ~ leading_space t /\ ~ trailing_space t.

(** [e] is the first comma-separated entry of [s]. *)
Definition first_entry_of (s e : string) : Prop :=
  has_byte ","%char e = false /\
  (e = s \/ exists rest, s = e +:+ String ","%char rest).

(** [p] is [s] with the suffix from its last colon onward removed, and is
    [s] when [s] has no colon. *)
Definition before_last_colon (s p : string) : Prop :=
  (has_byte ":"%char s = false /\ p = s) \/
  (exists q, s = p +:+ String ":"%char q /\ has_byte ":"%char q = false).

(** The identifier the policy assigns to a request. *)
Definition resolves_to (r : Request) (id : string) : Prop :=
  let forwarded := Header_Get (Header r) "X-Forwarded-For" in
  let realIP := Header_Get (Header r) "X-Real-IP" in
  if decide (forwarded <> EmptyString) then
    exists e, first_entry_of forwarded e /\ trimmed_of e id
  else if decide (realIP <> EmptyString) then trimmed_of realIP id
  else before_last_colon (RemoteAddr r) id.

(** What the handlers of this program do to their [http.ResponseWriter]
    [w], and the call of the wrapped handler. *)
Inductive action : Type :=
| HeaderSet (key value : string)          (* w.Header().Set(key, value) *)
| WriteHeader (statusCode : Z)            (* w.WriteHeader(statusCode) *)
| Encode (v : gmap string string)         (* json.NewEncoder(w).Encode(v) *)
| Next (r : Request).                     (* next(w, r) *)

Definition StatusTooManyRequests : Z := 429.
Definition StatusOK : Z := 200.

(** The [errorResponse] map of the middleware. *)
Definition errorResponse : gmap string string :=
  {[ "error" := "Rate limit exceeded" ]}.

(** [RateLimitMiddleware(limiter)(next)(w, r)]: the actions of the wrapped
    handler on [w] and [next], and the limiter once [AllowRequest] is done. *)
Definition RateLimitMiddleware (limiter : RateLimiter) (r : Request)
  : list action * RateLimiter :=
  let ip := getClientIP r in
  let '(allowed, limiter') := AllowRequest limiter ip in
  if negb allowed then
    ([ HeaderSet "Content-Type" "application/json";
       WriteHeader StatusTooManyRequests;
       Encode errorResponse ],
     limiter')
  else ([ Next r ], limiter').

(** The response a server builds behind a [ResponseWriter]: the status
    line once it is written, the headers sent with it, the header map the
    handler still edits, and the JSON documents written to the body. *)
Record Response : Type := mkResponse {
  Code : option Z;
  SentHeader : Header_t;
  PendingHeader : Header_t;
  Body : list (gmap string string)
}.

Definition newResponse : Response := mkResponse None ∅ ∅ [].

(** The first [WriteHeader] sends the status and the headers set so far;
    later calls are ignored. *)
Definition do_WriteHeader (statusCode : Z) (w : Response) : Response :=
  match Code w with
  | Some _ => w
  | None => mkResponse (Some statusCode) (PendingHeader w) (PendingHeader w) (Body w)
  end.

(** A write to the body; it sends status 200 first when no status was
    written. *)
Definition do_Encode (v : gmap string string) (w : Response) : Response :=
  let w' := do_WriteHeader StatusOK w in
  mkResponse (Code w') (SentHeader w') (PendingHeader w') (Body w' ++ [v]).

Definition do_HeaderSet (key value : string) (w : Response) : Response :=
  mkResponse (Code w) (SentHeader w) (Header_Set (PendingHeader w) key value) (Body w).

(** [http.HandlerFunc]: a handler works on the response and may use the
    limiter it closes over. *)
Definition HandlerFunc : Type :=
  Response -> Request -> RateLimiter -> Response * RateLimiter.

Fixpoint perform (next : HandlerFunc) (acts : list action)
    (w : Response) (rl : RateLimiter) : Response * RateLimiter :=
  match acts with
  | [] => (w, rl)
  | HeaderSet k v :: acts' => perform next acts' (do_HeaderSet k v w) rl
  | WriteHeader c :: acts' => perform next acts' (do_WriteHeader c w) rl
  | Encode v :: acts' => perform next acts' (do_Encode v w) rl
  | Next r :: acts' => let '(w', rl') := next w r rl in perform next acts' w' rl'
  end.

(** The handler that [RateLimitMiddleware(limiter)(next)] returns. *)
Definition limited (next : HandlerFunc) : HandlerFunc :=
  fun w r limiter =>
    let '(acts, limiter') := RateLimitMiddleware limiter r in
    perform next acts w limiter'.

(** ** Concurrent callers of AllowRequest *)

Module Concurrent.

(** Program points of one call of [AllowRequest]. *)
Inductive pc : Type :=
| AtLock                       (* before rl.Mutex.Lock() *)
| AtRead                       (* mutex held; before currentCount := rl.Requests[ip] *)
| AtCompare (currentCount : Z) (* before currentCount >= rl.MaxRequests *)
| AtStore (currentCount : Z)   (* before rl.Requests[ip] = currentCount + 1 *)
| AtUnlock (ret : bool)        (* return value fixed; the deferred Unlock is due *)
| Returned (ret : bool).       (* the call has returned ret *)

(** A worker goroutine: the argument of its call and where it stands. *)
Record worker : Type := mkWorker {
  w_ip : string;
  w_pc : pc
}.

(** The limiter shared by the workers, its mutex, and the workers. *)
Record system : Type := mkSystem {
  sys_rl : RateLimiter;
  sys_locked : bool;
  sys_workers : list worker
}.

Definition set_pc (i : nat) (ip : string) (p : pc) (s : system) : list worker :=
  <[i := mkWorker ip p]> (sys_workers s).

(** One step of worker [i]; [None] when it cannot move: it waits for the
    mutex, it has returned, or there is no such worker. *)
Definition step_worker (i : nat) (s : system) : option system :=
  match sys_workers s !! i with
  | None => None
  | Some (mkWorker ip p) =>
      let rl := sys_rl s in
      match p with
      | AtLock =>
          if sys_locked s then None
          else Some (mkSystem rl true (set_pc i ip AtRead s))
      | AtRead =>
          Some (mkSystem rl (sys_locked s) (set_pc i ip (AtCompare (count_of rl ip)) s))
      | AtCompare c =>
          if c >=? MaxRequests rl
          then Some (mkSystem rl (sys_locked s) (set_pc i ip (AtUnlock false) s))
          else Some (mkSystem rl (sys_locked s) (set_pc i ip (AtStore c) s))
      | AtStore c =>
          Some (mkSystem
                  (mkRateLimiter (<[ip := wrap_int (c + 1)]> (Requests rl))
                                 (MaxRequests rl) (WindowDuration rl))
                  (sys_locked s) (set_pc i ip (AtUnlock true) s))
      | AtUnlock b =>
          Some (mkSystem rl false (set_pc i ip (Returned b) s))
      | Returned _ => None
      end
  end.

(** A schedule names the worker to run at each instant; naming a worker
    that cannot move lets the instant pass. *)
Fixpoint run (sched : list nat) (s : system) : system :=
  match sched with
  | [] => s
  | i :: sched' => run sched' (default s (step_worker i s))
  end.

Definition has_returned (b : bool) (w : worker) : bool :=
  match w_pc w with Returned b' => Bool.eqb b b' | _ => false end.

Definition is_done (w : worker) : bool :=
  match w_pc w with Returned _ => true | _ => false end.

(** Number of workers that satisfy [P]. *)
Fixpoint tally (P : worker -> bool) (ws : list worker) : Z :=
  match ws with
  | [] => 0
  | w :: ws' => (if P w then 1 else 0) + tally P ws'
  end.

Definition all_done (s : system) : bool := forallb is_done (sys_workers s).

(** [n] workers about to call [AllowRequest(ip)] on limiter [rl]. *)
Definition spawn (rl : RateLimiter) (ip : string) (n : nat) : system :=
  mkSystem rl false (replicate n (mkWorker ip AtLock)).

(** An upper bound on the steps a worker still has to take. *)
Definition steps_left (w : worker) : Z :=
  match w_pc w with
  | AtLock => 5
  | AtRead => 4
  | AtCompare _ => 3
  | AtStore _ => 2
  | AtUnlock _ => 1
  | Returned _ => 0
  end.

Fixpoint work_left (ws : list worker) : Z :=
  match ws with
  | [] => 0
  | w :: ws' => steps_left w + work_left ws'
  end.

(** A worker that holds the mutex. *)
Definition critical (w : worker) : bool :=
  match w_pc w with
  | AtRead | AtCompare _ | AtStore _ | AtUnlock _ => true
  | AtLock | Returned _ => false
  end.

(** A worker whose call has been decided: accepted, or rejected. *)
Definition accepted (w : worker) : bool :=
  match w_pc w with AtUnlock true | Returned true => true | _ => false end.
Definition rejected (w : worker) : bool :=
  match w_pc w with AtUnlock false | Returned false => true | _ => false end.

(** The count a worker has read is the count in the table. *)
Definition view_ok (rl : RateLimiter) (w : worker) : Prop :=
  match w_pc w with
  | AtCompare c => c = count_of rl (w_ip w)
  | AtStore c => c = count_of rl (w_ip w) /\ c < MaxRequests rl
  | _ => True
  end.

(** What holds of the system at every instant, for workers that all call
    [AllowRequest(ip)] on a limiter of limit [M]. *)
Record invariant (ip : string) (M : Z) (n : nat) (s : system) : Prop := mkInvariant {
  inv_limit : MaxRequests (sys_rl s) = M;
  inv_size : length (sys_workers s) = n;
  inv_ip : forall j w, sys_workers s !! j = Some w -> w_ip w = ip;
  inv_mutex :
    if sys_locked s then
      exists i w, sys_workers s !! i = Some w /\ critical w = true /\
        forall j w', j <> i -> sys_workers s !! j = Some w' -> critical w' = false
    else forall j w', sys_workers s !! j = Some w' -> critical w' = false;
  inv_view : forall j w, sys_workers s !! j = Some w -> view_ok (sys_rl s) w;
  inv_count : count_of (sys_rl s) ip = tally accepted (sys_workers s);
  inv_reject : 0 < tally rejected (sys_workers s) -> M <= count_of (sys_rl s) ip;
  inv_le : count_of (sys_rl s) ip <= M
}.

End Concurrent.
(** * Further definitions *)

(** ** Accounting over histories *)

(** Number of [AllowRequest(ip)] calls of a history that return [true]. *)
Fixpoint accepted_calls (ip : string) (ops : list op) (rl : RateLimiter) : Z :=
  match ops with
  | [] => 0
  | o :: ops' =>
      (if is_allow_of ip o && fst (AllowRequest rl ip) then 1 else 0)
      + accepted_calls ip ops' (snd (step o rl))
  end.

(** Number of resets in a history. *)
Fixpoint ticks (ops : list op) : Z :=
  match ops with
  | [] => 0
  | o :: ops' => (if is_tick o then 1 else 0) + ticks ops'
  end.

(** ** The gate over a sequence of requests *)

(** The call the gate makes on the limiter for a request. *)
Definition gate_op (r : Request) : op := CallAllow (getClientIP r).

(** What the gate does once the limiter has answered. *)
Definition gate_actions (r : Request) (o : outcome) : list action :=
  match o with
  | RetBool true => [ Next r ]
  | _ => [ HeaderSet "Content-Type" "application/json";
           WriteHeader StatusTooManyRequests;
           Encode errorResponse ]
  end.

(** The gate applied to the requests one after the other, the wrapped
    handlers leaving the limiter alone (as [handleDataRequest] does). *)
Fixpoint gate_all (rs : list Request) (limiter : RateLimiter)
  : list (list action) * RateLimiter :=
  match rs with
  | [] => ([], limiter)
  | r :: rs' =>
      let '(acts, limiter') := RateLimitMiddleware limiter r in
      let '(rest, limiter'') := gate_all rs' limiter' in
      (acts :: rest, limiter'')
  end.

(** Whether the gate passed the request on to the wrapped handler. *)
Definition passed_on (acts : list action) : bool :=
  match acts with
  | [ Next _ ] => true
  | _ => false
  end.

(** ** main.go: the protected handler and the server *)

Definition MethodGet : string := "GET".
Definition StatusMethodNotAllowed : Z := 405.
Definition StatusInternalServerError : Z := 500.

(** What a handler of [main.go] does: calls on its [ResponseWriter] [w],
    and lines written to the log. *)
Inductive effect : Type :=
| OnWriter (a : action)                (* a call on w *)
| LogPrintf (format err : string).     (* log.Printf(format, err) *)

(** [handleDataRequest(w, r)].  [err] is what
    [json.NewEncoder(w).Encode(response)] returns at line 65: [None] for
    [nil], [Some e] for an error [e] (the writer could not send the
    document).  The result of the [Encode] call of the other branch is
    dropped by the code. *)
Definition handleDataRequest (r : Request) (err : option string) : list effect :=
  OnWriter (HeaderSet "Content-Type" "application/json") ::
  if negb (bool_decide (Method r = MethodGet)) then
    [ OnWriter (WriteHeader StatusMethodNotAllowed);
      OnWriter (Encode {[ "error" := "Method not allowed" ]}) ]
  else
    let response : gmap string string := {[ "message" := "Request successful" ]} in
    OnWriter (Encode response) ::
    match err with
    | Some e => [ LogPrintf "Error encoding response: %v" e;
                  OnWriter (WriteHeader StatusInternalServerError) ]
    | None => []
    end.




(** A handler with what it closes over made explicit: the limiter, and
    the result [err] of the [Encode] call of [handleDataRequest] should
    the request get there. *)
Definition Handler : Type :=
  Request -> option string -> RateLimiter -> list effect * RateLimiter.

(** [rateLimitMiddleware := RateLimitMiddleware(rateLimiter)] of [main],
    applied to a handler [next]: the [next(w, r)] of the gate is replaced
    by what [next] does. *)
Definition rateLimitMiddleware (next : Request -> option string -> list effect)
  : Handler :=
  fun r err limiter =>
    let '(acts, limiter') := RateLimitMiddleware limiter r in
    (flat_map (fun a => match a with
                        | Next r' => next r' err
                        | _ => [ OnWriter a ]
                        end) acts,
     limiter').

(** The default mux when [main] reaches [ListenAndServe]: one pattern is
    registered, by [http.HandleFunc] at line 31. *)
Definition DefaultServeMux : gmap string Handler :=
  {[ "/api/data" := rateLimitMiddleware handleDataRequest ]}.

(** A request as the server dispatches it.  [Pattern] is the pattern of
    the mux that matches the request ([r.Pattern] of [net/http]), empty
    when none does; matching a path against the patterns is the
    library's.  [EncodeErr] is what [Encode] returns on this request's
    connection at line 65. *)
Record Incoming : Type := mkIncoming {
  Pattern : string;
  Req : Request;
  EncodeErr : option string
}.

(** The server on a sequence of requests of one window, in the order in
    which their handlers are run on the limiter.  A request whose pattern
    has no handler is answered by the library ([None] here): no code of
    the program runs for it. *)
Fixpoint serve (rs : list Incoming) (limiter : RateLimiter)
  : list (option (list effect)) * RateLimiter :=
  match rs with
  | [] => ([], limiter)
  | i :: rs' =>
      match DefaultServeMux !! Pattern i with
      | Some handler =>
          let '(es, limiter') := handler (Req i) (EncodeErr i) limiter in
          let '(rest, limiter'') := serve rs' limiter' in
          (Some es :: rest, limiter'')
      | None =>
          let '(rest, limiter') := serve rs' limiter in
          (None :: rest, limiter')
      end
  end.

(** The requests that the mux hands to the registered handler. *)
Definition routed (rs : list Incoming) : list Incoming :=
  filter (fun i => Pattern i = "/api/data") rs.

(** What the gate does to the writer of a request it turns away. *)
Definition tooManyRequests : list effect :=
  [ OnWriter (HeaderSet "Content-Type" "application/json");
    OnWriter (WriteHeader StatusTooManyRequests);
    OnWriter (Encode errorResponse) ].

(** ** Goroutines: the callers of both methods and the ticker *)

Module Goroutines.

(** Program points of the three kinds of goroutine that use a limiter: a
    call of [AllowRequest], a call of [GetRemainingRequests], and the loop
    that [startResetTicker] starts. *)
Inductive gpc : Type :=
| AllowLock                      (* before rl.Mutex.Lock() *)
| AllowRead                      (* before currentCount := rl.Requests[ip] *)
| AllowCompare (currentCount : Z) (* before currentCount >= rl.MaxRequests *)
| AllowStore (currentCount : Z)  (* before rl.Requests[ip] = currentCount + 1 *)
| AllowUnlock (ret : bool)       (* before the deferred Unlock *)
| AllowRet (ret : bool)          (* returned *)
| RemLock                        (* before rl.Mutex.Lock() *)
| RemRead                        (* before currentCount := rl.Requests[ip] *)
| RemSub (currentCount : Z)      (* before remaining := rl.MaxRequests - currentCount *)
| RemCheck (remaining : Z)       (* before remaining < 0 *)
| RemUnlock (ret : Z)            (* before the deferred Unlock *)
| RemRet (ret : Z)               (* returned *)
| TickWait                       (* for range ticker.C: waiting for a tick *)
| TickLock                       (* before rl.Mutex.Lock() *)
| TickAssign                     (* before rl.Requests = make(map[string]int) *)
| TickUnlock.                    (* before rl.Mutex.Unlock() *)

(** A goroutine: the argument of its call (unused by the ticker) and where
    it stands. *)
Record goroutine : Type := mkG {
  g_ip : string;
  g_pc : gpc
}.

Record gsystem : Type := mkGS {
  gs_rl : RateLimiter;
  gs_locked : bool;
  gs_pool : list goroutine
}.

Definition at_pc (i : nat) (ip : string) (p : gpc) (s : gsystem) : list goroutine :=
  <[i := mkG ip p]> (gs_pool s).

(** One step of goroutine [i], and the operation it completes with this
    step, if any: an operation is complete when its critical section
    ends.  [None] when the goroutine cannot move: it waits for the mutex
    or has returned. *)
Definition gstep (i : nat) (s : gsystem) : option (gsystem * list (nat * op)) :=
  match gs_pool s !! i with
  | None => None
  | Some (mkG ip p) =>
      let rl := gs_rl s in
      let locked := gs_locked s in
      match p with
      | AllowLock =>
          if locked then None
          else Some (mkGS rl true (at_pc i ip AllowRead s), [])
      | AllowRead =>
          Some (mkGS rl locked (at_pc i ip (AllowCompare (count_of rl ip)) s), [])
      | AllowCompare c =>
          if c >=? MaxRequests rl
          then Some (mkGS rl locked (at_pc i ip (AllowUnlock false) s), [])
          else Some (mkGS rl locked (at_pc i ip (AllowStore c) s), [])
      | AllowStore c =>
          Some (mkGS (mkRateLimiter (<[ip := wrap_int (c + 1)]> (Requests rl))
                                    (MaxRequests rl) (WindowDuration rl))
                     locked (at_pc i ip (AllowUnlock true) s), [])
      | AllowUnlock b =>
          Some (mkGS rl false (at_pc i ip (AllowRet b) s), [(i, CallAllow ip)])
      | AllowRet _ => None
      | RemLock =>
          if locked then None
          else Some (mkGS rl true (at_pc i ip RemRead s), [])
      | RemRead =>
          Some (mkGS rl locked (at_pc i ip (RemSub (count_of rl ip)) s), [])
      | RemSub c =>
          Some (mkGS rl locked
                     (at_pc i ip (RemCheck (wrap_int (MaxRequests rl - c))) s), [])
      | RemCheck remaining =>
          if remaining <? 0
          then Some (mkGS rl locked (at_pc i ip (RemUnlock 0) s), [])
          else Some (mkGS rl locked (at_pc i ip (RemUnlock remaining) s), [])
      | RemUnlock z =>
          Some (mkGS rl false (at_pc i ip (RemRet z) s), [(i, CallRemaining ip)])
      | RemRet _ => None
      | TickWait =>
          Some (mkGS rl locked (at_pc i ip TickLock s), [])
      | TickLock =>
          if locked then None
          else Some (mkGS rl true (at_pc i ip TickAssign s), [])
      | TickAssign =>
          Some (mkGS (mkRateLimiter ∅ (MaxRequests rl) (WindowDuration rl))
                     locked (at_pc i ip TickUnlock s), [])
      | TickUnlock =>
          Some (mkGS rl false (at_pc i ip TickWait s), [(i, Tick)])
      end
  end.

(** The system after a schedule, and the operations completed on the way,
    in the order of their completion, each with the goroutine that made
    it.  Naming a goroutine that cannot move lets the instant pass. *)
Fixpoint grun (sched : list nat) (s : gsystem) (log : list (nat * op))
  : gsystem * list (nat * op) :=
  match sched with
  | [] => (s, log)
  | i :: sched' =>
      match gstep i s with
      | Some (s', done_ops) => grun sched' s' (log ++ done_ops)
      | None => grun sched' s log
      end
  end.

(** A goroutine between [Lock] and [Unlock]. *)
Definition gcritical (g : goroutine) : bool :=
  match g_pc g with
  | AllowRead | AllowCompare _ | AllowStore _ | AllowUnlock _
  | RemRead | RemSub _ | RemCheck _ | RemUnlock _
  | TickAssign | TickUnlock => true
  | _ => false
  end.

(** A goroutine that has not started its call or loop yet. *)
Definition gfresh (g : goroutine) : bool :=
  match g_pc g with
  | AllowLock | RemLock | TickWait => true
  | _ => false
  end.

(** A goroutine that will not move again. *)
Definition gfinished (g : goroutine) : bool :=
  match g_pc g with
  | AllowRet _ | RemRet _ => true
  | _ => false
  end.

(** A call of [AllowRequest(ip)] that has returned [true]. *)
Definition admitted (ip : string) (g : goroutine) : bool :=
  match g_pc g with
  | AllowRet true => bool_decide (g_ip g = ip)
  | _ => false
  end.

Fixpoint gtally (P : goroutine -> bool) (pool : list goroutine) : Z :=
  match pool with
  | [] => 0
  | g :: pool' => (if P g then 1 else 0) + gtally P pool'
  end.

(** The mutex is held exactly while one goroutine is in its critical
    section, and no second one is. *)
Definition mutex_ok (locked : bool) (pool : list goroutine) : Prop :=
  if locked then
    exists i g, pool !! i = Some g /\ gcritical g = true /\
      forall j g', j <> i -> pool !! j = Some g' -> gcritical g' = false
  else forall j g', pool !! j = Some g' -> gcritical g' = false.

(** Where a goroutine in its critical section stands, with respect to the
    limiter [base] it found when it took the mutex. *)
Definition mid_ok (base rl : RateLimiter) (g : goroutine) : Prop :=
  match g_pc g with
  | AllowRead | RemRead | TickAssign => rl = base
  | AllowCompare c => rl = base /\ c = count_of base (g_ip g)
  | AllowStore c =>
      rl = base /\ c = count_of base (g_ip g) /\ (c >=? MaxRequests base) = false
  | AllowUnlock b => (b, rl) = AllowRequest base (g_ip g)
  | RemSub c => rl = base /\ c = count_of base (g_ip g)
  | RemCheck remaining =>
      rl = base /\ remaining = wrap_int (MaxRequests base - count_of base (g_ip g))
  | RemUnlock z => rl = base /\ z = GetRemainingRequests base (g_ip g)
  | TickUnlock => rl = resetTick base
  | _ => True
  end.

(** The value a goroutine has returned is the outcome of its operation in
    the history of completed operations. *)
Definition ret_ok (rl0 : RateLimiter) (log : list (nat * op)) (i : nat) (g : goroutine)
  : Prop :=
  match g_pc g with
  | AllowRet b =>
      exists k, log !! k = Some (i, CallAllow (g_ip g))
                /\ outcomes (map snd log) rl0 !! k = Some (RetBool b)
  | RemRet z =>
      exists k, log !! k = Some (i, CallRemaining (g_ip g))
                /\ outcomes (map snd log) rl0 !! k = Some (RetInt z)
  | _ => True
  end.

(** What holds at every instant of a system started on limiter [rl0],
    with [log] the operations completed so far. *)
Record ginv (rl0 : RateLimiter) (s : gsystem) (log : list (nat * op)) : Prop := mkGinv {
  ginv_mutex : mutex_ok (gs_locked s) (gs_pool s);
  ginv_mid : forall i g, gs_pool s !! i = Some g ->
                         mid_ok (exec (map snd log) rl0) (gs_rl s) g;
  ginv_idle : gs_locked s = false -> gs_rl s = exec (map snd log) rl0;
  ginv_ret : forall i g, gs_pool s !! i = Some g -> ret_ok rl0 log i g;
  ginv_admitted : forall ip,
      gtally (admitted ip) (gs_pool s) = accepted_calls ip (map snd log) rl0
}.

(** The system at the start: the limiter as constructed, the mutex free,
    no goroutine has begun. *)
Definition gstart (rl0 : RateLimiter) (pool : list goroutine) : gsystem :=
  mkGS rl0 false pool.

(** The system and the completed operations after a schedule. *)
Definition gafter (sched : list nat) (rl0 : RateLimiter) (pool : list goroutine)
  : gsystem * list (nat * op) :=
  grun sched (gstart rl0 pool) [].

End Goroutines.


(** * Properties *)

(** ** Machine integers *)

Lemma int_bounds : min_int = -9223372036854775808 /\ max_int = 9223372036854775807.
Proof. split; reflexivity. Qed.

Ltac int_arith :=
  let Hmin := fresh in let Hmax := fresh in
  pose proof int_bounds as [Hmin Hmax]; unfold is_int in *; lia.

Lemma wrap_int_id z : is_int z -> wrap_int z = z.
Proof.
  intros Hz. unfold wrap_int.
  replace (2 ^ int_bits) with (max_int - min_int + 1) by reflexivity.
  rewrite Z.mod_small; int_arith.
Qed.

Lemma wrap_int_is_int z : is_int (wrap_int z).
Proof.
  unfold wrap_int.
  pose proof (Z.mod_pos_bound (z - min_int) (2 ^ int_bits) eq_refl) as Hm.
  replace (2 ^ int_bits) with (max_int - min_int + 1) in * by reflexivity.
  int_arith.
Qed.

(** ** The limiter, one operation at a time *)

Lemma count_of_is_int rl ip : well_typed rl -> is_int (count_of rl ip).
Proof.
  intros (_ & _ & Hm). unfold count_of.
  destruct (Requests rl !! ip) as [v|] eqn:E; simpl.
  - exact (Hm _ _ E).
  - int_arith.
Qed.

Lemma AllowRequest_reject rl ip :
  MaxRequests rl <= count_of rl ip -> AllowRequest rl ip = (false, rl).
Proof.
  intros H. unfold AllowRequest.
  destruct (Z.geb_spec (count_of rl ip) (MaxRequests rl)); [done | lia].
Qed.

Lemma AllowRequest_accept rl ip :
  well_typed rl -> count_of rl ip < MaxRequests rl ->
  AllowRequest rl ip =
    (true, mkRateLimiter (<[ip := count_of rl ip + 1]> (Requests rl))
                         (MaxRequests rl) (WindowDuration rl)).
Proof.
  intros Hwt H. unfold AllowRequest.
  destruct (Z.geb_spec (count_of rl ip) (MaxRequests rl)); [lia |].
  rewrite wrap_int_id; [done |].
  pose proof (count_of_is_int rl ip Hwt). destruct Hwt as (HM & _). int_arith.
Qed.

Lemma AllowRequest_MaxRequests rl ip :
  MaxRequests (snd (AllowRequest rl ip)) = MaxRequests rl.
Proof. unfold AllowRequest. by destruct (_ >=? _). Qed.

Lemma AllowRequest_WindowDuration rl ip :
  WindowDuration (snd (AllowRequest rl ip)) = WindowDuration rl.
Proof. unfold AllowRequest. by destruct (_ >=? _). Qed.

Lemma AllowRequest_other rl a b :
  a <> b -> Requests (snd (AllowRequest rl a)) !! b = Requests rl !! b.
Proof.
  intros Hab. unfold AllowRequest. destruct (_ >=? _); simpl; [done |].
  by rewrite lookup_insert_ne.
Qed.

Lemma count_of_insert_eq m M W ip v :
  count_of (mkRateLimiter (<[ip := v]> m) M W) ip = v.
Proof. unfold count_of; simpl. by rewrite lookup_insert_eq. Qed.

Lemma count_of_other rl a b :
  a <> b -> count_of (snd (AllowRequest rl a)) b = count_of rl b.
Proof. intros Hab. unfold count_of. by rewrite AllowRequest_other. Qed.

Lemma AllowRequest_well_typed rl ip :
  well_typed rl -> well_typed (snd (AllowRequest rl ip)).
Proof.
  intros (HM & HW & Hm). unfold AllowRequest.
  destruct (_ >=? _); simpl; [done |].
  split_and!; simpl; [done | done |].
  apply map_Forall_insert_2; [apply wrap_int_is_int | done].
Qed.

Lemma step_well_typed o rl : well_typed rl -> well_typed (snd (step o rl)).
Proof.
  intros Hwt. destruct o as [ip | ip |]; simpl.
  - pose proof (AllowRequest_well_typed rl ip Hwt).
    by destruct (AllowRequest rl ip).
  - done.
  - destruct Hwt as (HM & HW & _). split_and!; simpl; [done | done |].
    apply map_Forall_empty.
Qed.

Lemma step_MaxRequests o rl : MaxRequests (snd (step o rl)) = MaxRequests rl.
Proof.
  destruct o as [ip | ip |]; simpl; try done.
  pose proof (AllowRequest_MaxRequests rl ip). by destruct (AllowRequest rl ip).
Qed.

Lemma step_WindowDuration o rl : WindowDuration (snd (step o rl)) = WindowDuration rl.
Proof.
  destruct o as [ip | ip |]; simpl; try done.
  pose proof (AllowRequest_WindowDuration rl ip). by destruct (AllowRequest rl ip).
Qed.

Lemma step_allow_snd rl ip : snd (step (CallAllow ip) rl) = snd (AllowRequest rl ip).
Proof. simpl. by destruct (AllowRequest rl ip). Qed.

Lemma step_allow_fst rl ip : fst (step (CallAllow ip) rl) = RetBool (fst (AllowRequest rl ip)).
Proof. simpl. by destruct (AllowRequest rl ip). Qed.

Lemma NewRateLimiter_ok m w :
  0 < w -> NewRateLimiter m w = Ok (mkRateLimiter ∅ m w).
Proof.
  intros Hw. unfold NewRateLimiter, startResetTicker, NewTicker; simpl.
  destruct (Z.leb_spec w 0); [lia | done].
Qed.

Lemma NewRateLimiter_panic m w :
  w <= 0 -> NewRateLimiter m w = Panic "non-positive interval for NewTicker".
Proof.
  intros Hw. unfold NewRateLimiter, startResetTicker, NewTicker; simpl.
  destruct (Z.leb_spec w 0); [done | lia].
Qed.

Lemma NewRateLimiter_inv m w rl :
  NewRateLimiter m w = Ok rl -> 0 < w /\ rl = mkRateLimiter ∅ m w.
Proof.
  destruct (Z.le_gt_cases w 0) as [Hw | Hw].
  - by rewrite NewRateLimiter_panic.
  - rewrite NewRateLimiter_ok by done. intros [= <-]. done.
Qed.

Lemma reachable_well_typed rl : reachable rl -> well_typed rl.
Proof.
  induction 1 as [m w rl Hm Hw Hnew | o rl _ IH].
  - apply NewRateLimiter_inv in Hnew as [_ ->].
    split_and!; simpl; [done | done |]. apply map_Forall_empty.
  - by apply step_well_typed.
Qed.

Lemma exec_app ops1 ops2 rl : exec (ops1 ++ ops2) rl = exec ops2 (exec ops1 rl).
Proof. revert rl. induction ops1 as [| o ops1 IH]; intros rl; simpl; [done | apply IH]. Qed.

Lemma reachable_exec ops rl : reachable rl -> reachable (exec ops rl).
Proof.
  revert rl. induction ops as [| o ops IH]; intros rl Hr; simpl; [done |].
  apply IH. by constructor.
Qed.

Lemma exec_MaxRequests ops rl : MaxRequests (exec ops rl) = MaxRequests rl.
Proof.
  revert rl. induction ops as [| o ops IH]; intros rl; simpl; [done |].
  by rewrite IH, step_MaxRequests.
Qed.

Lemma exec_well_typed ops rl : well_typed rl -> well_typed (exec ops rl).
Proof.
  revert rl. induction ops as [| o ops IH]; intros rl Hwt; simpl; [done |].
  apply IH. by apply step_well_typed.
Qed.

Lemma allow_calls_nonneg ip ops : 0 <= allow_calls ip ops.
Proof. induction ops as [| o ops IH]; simpl; [lia |]. destruct (is_allow_of ip o); lia. Qed.

(** ** Histories within one window *)

Lemma one_window_cons o ops :
  one_window (o :: ops) = true -> is_tick o = false /\ one_window ops = true.
Proof.
  unfold one_window; simpl. intros [H1 H2]%andb_true_iff.
  split; [by apply negb_true_iff | done].
Qed.

Lemma is_allow_of_true ip o : is_allow_of ip o = true -> o = CallAllow ip.
Proof.
  destruct o as [a | a |]; simpl; try done.
  intros H%bool_decide_eq_true. by subst.
Qed.

Lemma is_allow_of_same ip : is_allow_of ip (CallAllow ip) = true.
Proof. simpl. by apply bool_decide_eq_true. Qed.

(** One step within a window: the count of [ip] goes up by one when the
    step is an accepted [AllowRequest(ip)], and stays otherwise. *)
Lemma step_count o rl ip :
  well_typed rl -> is_tick o = false ->
  count_of (snd (step o rl)) ip =
    if is_allow_of ip o && (count_of rl ip <? MaxRequests rl)
    then count_of rl ip + 1 else count_of rl ip.
Proof.
  intros Hwt Hnt. destruct o as [a | a |]; try done.
  rewrite step_allow_snd. simpl.
  destruct (decide (a = ip)) as [-> | Hne].
  - rewrite bool_decide_eq_true_2 by done. simpl.
    destruct (Z.ltb_spec (count_of rl ip) (MaxRequests rl)).
    + rewrite AllowRequest_accept by done. simpl. apply count_of_insert_eq.
    + by rewrite AllowRequest_reject.
  - rewrite bool_decide_eq_false_2 by done. simpl. by apply count_of_other.
Qed.

(** The count of [ip] after a history without reset: it saturates at the
    limit. *)
Lemma exec_count ops rl ip :
  well_typed rl -> one_window ops = true ->
  count_of (exec ops rl) ip =
    Z.max (count_of rl ip)
          (Z.min (MaxRequests rl) (count_of rl ip + allow_calls ip ops)).
Proof.
  revert rl. induction ops as [| o ops IH]; intros rl Hwt Hw; simpl.
  - lia.
  - apply one_window_cons in Hw as [Hnt Hw].
    rewrite IH by (try apply step_well_typed; done).
    rewrite step_MaxRequests, (step_count o rl ip) by done.
    pose proof (allow_calls_nonneg ip ops).
    destruct (is_allow_of ip o); simpl; [| lia].
    destruct (Z.ltb_spec (count_of rl ip) (MaxRequests rl)); lia.
Qed.

(** While the limit is not passed, every [AllowRequest(ip)] of the
    history is accepted. *)
Lemma outcomes_accepted ops rl ip :
  well_typed rl -> one_window ops = true ->
  count_of rl ip + allow_calls ip ops <= MaxRequests rl ->
  forall i, ops !! i = Some (CallAllow ip) ->
            outcomes ops rl !! i = Some (RetBool true).
Proof.
  revert rl. induction ops as [| o ops IH]; intros rl Hwt Hw Hle i Hi; [done |].
  apply one_window_cons in Hw as [Hnt Hw].
  pose proof (allow_calls_nonneg ip ops) as Hnn.
  cbn [allow_calls] in Hle. destruct i as [| i].
  - injection Hi as ->. rewrite is_allow_of_same in Hle.
    change (Some (fst (step (CallAllow ip) rl)) = Some (RetBool true)).
    rewrite step_allow_fst, AllowRequest_accept by (done || lia). done.
  - change (outcomes ops (snd (step o rl)) !! i = Some (RetBool true)).
    change (ops !! i = Some (CallAllow ip)) in Hi.
    apply IH; try done; [by apply step_well_typed |].
    rewrite step_MaxRequests, (step_count o rl ip) by done.
    destruct (is_allow_of ip o); simpl; [| lia].
    destruct (Z.ltb_spec (count_of rl ip) (MaxRequests rl)); lia.
Qed.

Lemma length_outcomes ops rl : length (outcomes ops rl) = length ops.
Proof.
  revert rl. induction ops as [| o ops IH]; intros rl; simpl; [done | by rewrite IH].
Qed.

Lemma one_window_replicate k ip : one_window (replicate k (CallAllow ip)) = true.
Proof. induction k as [| k IH]; [done | exact IH]. Qed.

Lemma allow_calls_replicate k ip :
  allow_calls ip (replicate k (CallAllow ip)) = Z.of_nat k.
Proof.
  induction k as [| k IH]; [done |].
  cbn [replicate allow_calls]. rewrite is_allow_of_same, IH. lia.
Qed.

Lemma GetRemainingRequests_exact rl ip :
  is_int (MaxRequests rl - count_of rl ip) ->
  GetRemainingRequests rl ip = Z.max 0 (MaxRequests rl - count_of rl ip).
Proof.
  intros Hi. unfold GetRemainingRequests. rewrite wrap_int_id by done.
  destruct (Z.ltb_spec (MaxRequests rl - count_of rl ip) 0); lia.
Qed.

Lemma GetRemainingRequests_nonneg rl ip : 0 <= GetRemainingRequests rl ip.
Proof.
  unfold GetRemainingRequests.
  destruct (Z.ltb_spec (wrap_int (MaxRequests rl - count_of rl ip)) 0); lia.
Qed.

(** ** The invariant of the table *)

Lemma counts_bounded_count rl ip :
  counts_bounded rl ->
  (Requests rl !! ip = None /\ count_of rl ip = 0) \/
  (1 <= count_of rl ip <= MaxRequests rl).
Proof.
  intros Hb. unfold count_of.
  destruct (Requests rl !! ip) as [v |] eqn:E; simpl; [right | left; done].
  exact (Hb _ _ E).
Qed.

Lemma AllowRequest_counts_bounded rl ip :
  is_int (MaxRequests rl) -> counts_bounded rl ->
  counts_bounded (snd (AllowRequest rl ip)).
Proof.
  intros HM Hb. unfold AllowRequest.
  destruct (Z.geb_spec (count_of rl ip) (MaxRequests rl)) as [Hge | Hlt]; simpl; [done |].
  unfold counts_bounded; simpl. apply map_Forall_insert_2; [| done].
  rewrite wrap_int_id.
  - destruct (counts_bounded_count rl ip Hb) as [[_ ?] | ?]; lia.
  - destruct (counts_bounded_count rl ip Hb) as [[_ ?] | ?]; int_arith.
Qed.

Lemma step_counts_bounded o rl :
  is_int (MaxRequests rl) -> counts_bounded rl -> counts_bounded (snd (step o rl)).
Proof.
  intros HM Hb. destruct o as [ip | ip |].
  - rewrite step_allow_snd. by apply AllowRequest_counts_bounded.
  - done.
  - apply map_Forall_empty.
Qed.

Lemma reachable_counts_bounded rl : reachable rl -> counts_bounded rl.
Proof.
  induction 1 as [m w rl Hm Hw Hnew | o rl Hr IH].
  - apply NewRateLimiter_inv in Hnew as [_ ->]. apply map_Forall_empty.
  - apply step_counts_bounded; [| done].
    by destruct (reachable_well_typed rl Hr).
Qed.

Lemma reachable_remaining rl ip :
  reachable rl ->
  GetRemainingRequests rl ip = Z.max 0 (MaxRequests rl - count_of rl ip).
Proof.
  intros Hr. apply GetRemainingRequests_exact.
  pose proof (reachable_well_typed rl Hr) as (HM & _).
  destruct (counts_bounded_count rl ip (reachable_counts_bounded rl Hr))
    as [[_ ?] | ?]; int_arith.
Qed.

(** ** Sample states *)

Lemma is_int_literal z :
  -9223372036854775808 <= z <= 9223372036854775807 -> is_int z.
Proof. intros H. int_arith. Qed.

Lemma fresh_well_typed m w :
  is_int m -> is_int w -> well_typed (mkRateLimiter ∅ m w).
Proof. intros Hm Hw. split_and!; simpl; [done | done | apply map_Forall_empty]. Qed.

Lemma mainLimiter_new :
  NewRateLimiter maxRequestsPerMinute rateLimitWindow = Ok mainLimiter.
Proof. reflexivity. Qed.

Lemma mainLimiter_well_typed : well_typed mainLimiter.
Proof. apply fresh_well_typed; apply is_int_literal; vm_compute; split; discriminate. Qed.

Lemma mainLimiter_reachable : reachable mainLimiter.
Proof.
  apply (reach_new maxRequestsPerMinute rateLimitWindow);
    [apply is_int_literal; vm_compute; split; discriminate ..| reflexivity].
Qed.

(** ** Admission: check and increment *)

(** C1. In every state that Go's types allow, [AllowRequest(ip)] reads the
    count of [ip], which is 0 when [ip] is absent; when the count has
    reached [MaxRequests] it returns [false] and the limiter is unchanged;
    otherwise it returns [true] and stores the count plus one under [ip],
    nothing else changing.  Consequently, in a history without reset that
    starts from a non-negative count (in particular from a fresh window),
    once [ip] has made [MaxRequests] calls its next call, the
    (limit+1)-th, returns [false] and changes nothing. *)
Theorem AllowRequest_check_and_increment (rl : RateLimiter) (ip : string) :
  well_typed rl ->
  (Requests rl !! ip = None -> count_of rl ip = 0)
  /\ (count_of rl ip >= MaxRequests rl -> AllowRequest rl ip = (false, rl))
  /\ (count_of rl ip < MaxRequests rl ->
      AllowRequest rl ip =
        (true, mkRateLimiter (<[ip := count_of rl ip + 1]> (Requests rl))
                             (MaxRequests rl) (WindowDuration rl))
      /\ count_of (snd (AllowRequest rl ip)) ip = count_of rl ip + 1)
  /\ (forall ops,
        one_window ops = true -> 0 <= count_of rl ip ->
        MaxRequests rl <= allow_calls ip ops ->
        AllowRequest (exec ops rl) ip = (false, exec ops rl)).
Proof.
  intros Hwt. split_and!.
  - intros H. unfold count_of. by rewrite H.
  - intros H. apply AllowRequest_reject. lia.
  - intros H. rewrite AllowRequest_accept by done. split; [done |].
    simpl. apply count_of_insert_eq.
  - intros ops Hw H0 Hn. apply AllowRequest_reject.
    rewrite exec_MaxRequests, exec_count by done. lia.
Qed.

Lemma AllowRequest_check_and_increment_witness :
  count_of (snd (AllowRequest mainLimiter "10.0.0.1")) "10.0.0.1" = 1
  /\ fst (AllowRequest (exec (replicate 5 (CallAllow "10.0.0.1")) mainLimiter)
                       "10.0.0.1") = false.
Proof.
  assert (well_typed mainLimiter) as Hwt.
  { apply fresh_well_typed; apply is_int_literal; vm_compute; split; discriminate. }
  destruct (AllowRequest_check_and_increment mainLimiter "10.0.0.1" Hwt)
    as (_ & _ & Hacc & Hsat).
  split.
  - apply Hacc. vm_compute. reflexivity.
  - rewrite Hsat; [reflexivity | reflexivity | vm_compute; discriminate
                   | vm_compute; discriminate].
Defined.

(** C2. For a limiter built with a positive limit, from a state where
    [ip] is absent: [k] calls [AllowRequest(ip)] in a row,
    [1 <= k <= limit], all return [true], and [GetRemainingRequests(ip)]
    is then [limit - k]; the same holds in any history without reset in
    which [ip] calls [AllowRequest] [k] times, whatever other identifiers
    do in between.  In general, in every reachable state of every
    limiter, whatever its limit, [GetRemainingRequests(ip)] is
    [max(0, limit - counts[ip])]; and in every state whatsoever it is not
    negative. *)
Theorem remaining_after_k_calls (rl : RateLimiter) (ip : string) :
  (reachable rl -> 0 < MaxRequests rl -> Requests rl !! ip = None ->
   forall k : nat,
     1 <= Z.of_nat k <= MaxRequests rl ->
     outcomes (replicate k (CallAllow ip)) rl = replicate k (RetBool true)
     /\ GetRemainingRequests (exec (replicate k (CallAllow ip)) rl) ip
        = MaxRequests rl - Z.of_nat k)
  /\ (reachable rl -> 0 < MaxRequests rl -> Requests rl !! ip = None ->
      forall ops k,
        one_window ops = true -> allow_calls ip ops = k ->
        1 <= k <= MaxRequests rl ->
        (forall i, ops !! i = Some (CallAllow ip) ->
                   outcomes ops rl !! i = Some (RetBool true))
        /\ GetRemainingRequests (exec ops rl) ip = MaxRequests rl - k)
  /\ (reachable rl ->
      GetRemainingRequests rl ip = Z.max 0 (MaxRequests rl - count_of rl ip))
  /\ 0 <= GetRemainingRequests rl ip.
Proof.
  split_and!.
  - intros Hr Hpos Habs k Hrange.
    pose proof (reachable_well_typed rl Hr) as Hwt.
    assert (count_of rl ip = 0) as Hc by (unfold count_of; by rewrite Habs).
    pose proof (one_window_replicate k ip) as Hw.
    pose proof (allow_calls_replicate k ip) as Hk.
    split.
    + apply list_eq. intros i. destruct (decide (i < k)%nat) as [Hlt | Hge].
      * rewrite (outcomes_accepted _ rl ip) by
          (done || lia || by apply lookup_replicate_2).
        symmetry. by apply lookup_replicate_2.
      * rewrite !lookup_ge_None_2; [done | |].
        -- rewrite length_replicate. lia.
        -- rewrite length_outcomes, length_replicate. lia.
    + rewrite (reachable_remaining (exec _ rl)) by by apply reachable_exec.
      rewrite exec_MaxRequests, exec_count by done. lia.
  - intros Hr Hpos Habs ops k Hw Hk Hrange.
    pose proof (reachable_well_typed rl Hr) as Hwt.
    assert (count_of rl ip = 0) as Hc by (unfold count_of; by rewrite Habs).
    split.
    + apply outcomes_accepted; try done. lia.
    + rewrite (reachable_remaining (exec ops rl)) by by apply reachable_exec.
      rewrite exec_MaxRequests, exec_count by done. lia.
  - by apply reachable_remaining.
  - apply GetRemainingRequests_nonneg.
Qed.

Lemma remaining_after_k_calls_witness :
  GetRemainingRequests
    (exec [CallAllow "10.0.0.1"; CallAllow "10.0.0.2"; CallAllow "10.0.0.1";
           CallRemaining "10.0.0.1"; CallAllow "10.0.0.1"] mainLimiter)
    "10.0.0.1" = 2
  /\ GetRemainingRequests (mkRateLimiter ∅ (-1) rateLimitWindow) "10.0.0.1" = 0.
Proof.
  split.
  - assert (reachable mainLimiter) as Hr.
    { apply (reach_new maxRequestsPerMinute rateLimitWindow);
        [apply is_int_literal; vm_compute; split; discriminate ..| reflexivity]. }
    assert (0 < MaxRequests mainLimiter) as Hpos by reflexivity.
    destruct (remaining_after_k_calls mainLimiter "10.0.0.1") as (_ & Hk & _ & _).
    destruct (Hk Hr Hpos eq_refl
                [CallAllow "10.0.0.1"; CallAllow "10.0.0.2"; CallAllow "10.0.0.1";
                 CallRemaining "10.0.0.1"; CallAllow "10.0.0.1"] 3) as (_ & Hrem).
    + reflexivity.
    + reflexivity.
    + vm_compute. split; discriminate.
    + exact Hrem.
  - assert (reachable (mkRateLimiter ∅ (-1) rateLimitWindow)) as Hr.
    { apply (reach_new (-1) rateLimitWindow);
        [apply is_int_literal; vm_compute; split; discriminate ..| reflexivity]. }
    destruct (remaining_after_k_calls (mkRateLimiter ∅ (-1) rateLimitWindow)
                "10.0.0.1") as (_ & _ & Hgen & _).
    exact (Hgen Hr).
Defined.

(** ** The reset *)

Lemma resetTick_remaining rl ip :
  is_int (MaxRequests rl) ->
  GetRemainingRequests (resetTick rl) ip = Z.max 0 (MaxRequests rl).
Proof.
  intros HM. rewrite GetRemainingRequests_exact.
  - unfold count_of; simpl. rewrite lookup_empty; simpl. f_equal. lia.
  - unfold count_of; simpl. rewrite lookup_empty; simpl.
    by replace (MaxRequests rl - 0) with (MaxRequests rl) by lia.
Qed.

(** C3, as the claim states it, fails for a limiter built with a negative
    limit: after the reset [GetRemainingRequests] returns 0, not the
    limit. *)
Lemma reset_remaining_negative_limit :
  NewRateLimiter (-1) rateLimitWindow = Ok (mkRateLimiter ∅ (-1) rateLimitWindow)
  /\ reachable (mkRateLimiter ∅ (-1) rateLimitWindow)
  /\ GetRemainingRequests (resetTick (mkRateLimiter ∅ (-1) rateLimitWindow)) "10.0.0.1" = 0
  /\ GetRemainingRequests (resetTick (mkRateLimiter ∅ (-1) rateLimitWindow)) "10.0.0.1"
     <> MaxRequests (resetTick (mkRateLimiter ∅ (-1) rateLimitWindow)).
Proof.
  split_and!; [reflexivity | | reflexivity | vm_compute; discriminate].
  apply (reach_new (-1) rateLimitWindow);
    [apply is_int_literal; vm_compute; split; discriminate ..| reflexivity].
Qed.

(** C3 (amended). The reset replaces the whole table by the empty table
    in one step and leaves the limit and the window as they are.  For
    every reachable state and every identifier, also one that had used up
    its limit, after the reset [GetRemainingRequests] returns the limit
    when the limit is not negative, and 0 when it is negative; when the
    limit is positive the next [AllowRequest] returns [true]. *)
Theorem reset_restores_all (rl : RateLimiter) (ip : string) :
  reachable rl ->
  Requests (resetTick rl) = ∅
  /\ MaxRequests (resetTick rl) = MaxRequests rl
  /\ WindowDuration (resetTick rl) = WindowDuration rl
  /\ (0 <= MaxRequests rl -> GetRemainingRequests (resetTick rl) ip = MaxRequests rl)
  /\ (MaxRequests rl < 0 -> GetRemainingRequests (resetTick rl) ip = 0)
  /\ (0 < MaxRequests rl -> fst (AllowRequest (resetTick rl) ip) = true).
Proof.
  intros Hr. pose proof (reachable_well_typed rl Hr) as Hwt.
  pose proof Hwt as (HM & _).
  split_and!; try done.
  - intros H. rewrite resetTick_remaining by done. lia.
  - intros H. rewrite resetTick_remaining by done. lia.
  - intros H. rewrite AllowRequest_accept; [done | |].
    + by apply (step_well_typed Tick).
    + unfold count_of; simpl. by rewrite lookup_empty.
Qed.

Lemma reset_restores_all_witness :
  GetRemainingRequests
    (resetTick (exec (replicate 6 (CallAllow "10.0.0.1")) mainLimiter)) "10.0.0.1" = 5
  /\ fst (AllowRequest
            (resetTick (exec (replicate 6 (CallAllow "10.0.0.1")) mainLimiter))
            "10.0.0.1") = true.
Proof.
  assert (reachable (exec (replicate 6 (CallAllow "10.0.0.1")) mainLimiter)) as Hr.
  { apply reachable_exec.
    apply (reach_new maxRequestsPerMinute rateLimitWindow);
      [apply is_int_literal; vm_compute; split; discriminate ..| reflexivity]. }
  destruct (reset_restores_all _ "10.0.0.1" Hr) as (_ & _ & _ & Hrem & _ & Hallow).
  split.
  - rewrite Hrem; [reflexivity | vm_compute; discriminate].
  - apply Hallow. vm_compute. reflexivity.
Defined.

(** ** Independence of identifiers *)

Lemma GetRemainingRequests_frame rl rl' ip :
  MaxRequests rl' = MaxRequests rl -> Requests rl' !! ip = Requests rl !! ip ->
  GetRemainingRequests rl' ip = GetRemainingRequests rl ip.
Proof. intros HM Hc. unfold GetRemainingRequests, count_of. by rewrite HM, Hc. Qed.

Lemma exec_allow_other n rl a b :
  a <> b ->
  Requests (exec (replicate n (CallAllow a)) rl) !! b = Requests rl !! b.
Proof.
  intros Hab. revert rl. induction n as [| n IH]; intros rl; [done |].
  cbn [replicate exec]. rewrite IH, step_allow_snd. by apply AllowRequest_other.
Qed.

(** C4. For distinct identifiers [a] and [b], in every state, a call
    [AllowRequest(a)], accepted or not, leaves the entry of [b] as it is,
    and leaves [MaxRequests] and [WindowDuration] as they are; calling
    [AllowRequest(a)] any number of times, so also until [a] is exhausted,
    does not change [GetRemainingRequests(b)]. *)
Theorem AllowRequest_frame (rl : RateLimiter) (a b : string) :
  a <> b ->
  Requests (snd (AllowRequest rl a)) !! b = Requests rl !! b
  /\ count_of (snd (AllowRequest rl a)) b = count_of rl b
  /\ MaxRequests (snd (AllowRequest rl a)) = MaxRequests rl
  /\ WindowDuration (snd (AllowRequest rl a)) = WindowDuration rl
  /\ (forall n : nat,
        GetRemainingRequests (exec (replicate n (CallAllow a)) rl) b
        = GetRemainingRequests rl b).
Proof.
  intros Hab. split_and!.
  - by apply AllowRequest_other.
  - by apply count_of_other.
  - apply AllowRequest_MaxRequests.
  - apply AllowRequest_WindowDuration.
  - intros n. apply GetRemainingRequests_frame.
    + apply exec_MaxRequests.
    + by apply exec_allow_other.
Qed.

Lemma AllowRequest_frame_witness :
  GetRemainingRequests (exec (replicate 7 (CallAllow "A")) mainLimiter) "B"
  = GetRemainingRequests mainLimiter "B"
  /\ GetRemainingRequests (exec (replicate 7 (CallAllow "A")) mainLimiter) "A" = 0.
Proof.
  assert ("A" <> "B") as Hab by discriminate.
  destruct (AllowRequest_frame mainLimiter "A" "B" Hab) as (_ & _ & _ & _ & Hrem).
  split; [apply Hrem | reflexivity].
Defined.

(** ** Construction *)

(** C6, as the claim states it, fails: with a limit of 0 (or below) and a
    positive window the constructor returns a limiter and does not fail. *)
Lemma NewRateLimiter_accepts_nonpositive_limit :
  NewRateLimiter 0 rateLimitWindow = Ok (mkRateLimiter ∅ 0 rateLimitWindow)
  /\ NewRateLimiter (-3) rateLimitWindow = Ok (mkRateLimiter ∅ (-3) rateLimitWindow)
  /\ forall msg, NewRateLimiter 0 rateLimitWindow <> Panic msg.
Proof. split_and!; [reflexivity | reflexivity | intros msg; discriminate]. Qed.

(** C6 (amended). [NewRateLimiter] fails at construction, by the panic of
    the ticker it starts, exactly when [windowDuration <= 0], whatever
    [maxRequests] is; with a positive window it returns a limiter with an
    empty table for every [maxRequests], non-positive ones included. *)
Theorem NewRateLimiter_fails_iff_window (maxRequests windowDuration : Z) :
  (windowDuration <= 0 ->
   NewRateLimiter maxRequests windowDuration
   = Panic "non-positive interval for NewTicker")
  /\ (0 < windowDuration ->
      NewRateLimiter maxRequests windowDuration
      = Ok (mkRateLimiter ∅ maxRequests windowDuration))
  /\ ((exists msg, NewRateLimiter maxRequests windowDuration = Panic msg)
      <-> windowDuration <= 0).
Proof.
  split_and!.
  - apply NewRateLimiter_panic.
  - apply NewRateLimiter_ok.
  - split.
    + intros [msg Hp]. destruct (Z.le_gt_cases windowDuration 0) as [| Hw]; [done |].
      by rewrite NewRateLimiter_ok in Hp.
    + intros Hw. eexists. by apply NewRateLimiter_panic.
Qed.

Lemma NewRateLimiter_fails_iff_window_witness :
  NewRateLimiter maxRequestsPerMinute 0 = Panic "non-positive interval for NewTicker"
  /\ NewRateLimiter (-3) rateLimitWindow = Ok (mkRateLimiter ∅ (-3) rateLimitWindow).
Proof.
  split.
  - apply (NewRateLimiter_fails_iff_window maxRequestsPerMinute 0). vm_compute. discriminate.
  - apply (NewRateLimiter_fails_iff_window (-3) rateLimitWindow). vm_compute. reflexivity.
Defined.

(** ** The invariant *)

(** C9. The table is empty after construction; each operation keeps the
    invariant that every identifier present has a count between 1 and
    [MaxRequests] ([AllowRequest] stores such a value, the read-only
    [GetRemainingRequests] changes nothing, the reset empties the table);
    so the invariant holds in every reachable state. *)
Theorem counts_between_1_and_limit :
  (forall m w rl, NewRateLimiter m w = Ok rl -> Requests rl = ∅)
  /\ (forall rl ip v,
        well_typed rl -> counts_bounded rl ->
        Requests (snd (AllowRequest rl ip)) !! ip = Some v ->
        1 <= v <= MaxRequests rl)
  /\ (forall rl o,
        well_typed rl -> counts_bounded rl -> counts_bounded (snd (step o rl)))
  /\ (forall rl ip, snd (step (CallRemaining ip) rl) = rl)
  /\ (forall rl, Requests (snd (step Tick rl)) = ∅)
  /\ (forall rl, reachable rl ->
        forall ip v, Requests rl !! ip = Some v -> 1 <= v <= MaxRequests rl).
Proof.
  split_and!.
  - intros m w rl Hnew. by apply NewRateLimiter_inv in Hnew as [_ ->].
  - intros rl ip v (HM & _) Hb Hv.
    pose proof (AllowRequest_counts_bounded rl ip HM Hb) as Hb'.
    specialize (Hb' _ _ Hv). simpl in Hb'. by rewrite AllowRequest_MaxRequests in Hb'.
  - intros rl o (HM & _) Hb. by apply step_counts_bounded.
  - done.
  - done.
  - intros rl Hr ip v Hv. exact (reachable_counts_bounded rl Hr _ _ Hv).
Qed.

Lemma counts_between_1_and_limit_witness :
  1 <= 5 <= MaxRequests (exec (replicate 9 (CallAllow "10.0.0.1")) mainLimiter).
Proof.
  destruct counts_between_1_and_limit as (_ & _ & _ & _ & _ & Hinv).
  apply (Hinv (exec (replicate 9 (CallAllow "10.0.0.1")) mainLimiter)) with (ip := "10.0.0.1").
  - apply reachable_exec.
    apply (reach_new maxRequestsPerMinute rateLimitWindow);
      [apply is_int_literal; vm_compute; split; discriminate ..| reflexivity].
  - vm_compute. reflexivity.
Defined.

(** ** A limit that is not positive *)

(** C10. With [maxRequests <= 0] the constructor still returns a limiter
    (for any window it accepts, that is a positive one), and in every
    reachable state of a limiter whose [MaxRequests] is not positive,
    [AllowRequest] returns [false] and leaves the state unchanged, and
    [GetRemainingRequests] returns 0, for every identifier. *)
Theorem nonpositive_limit_rejects_all :
  (forall maxRequests windowDuration,
     maxRequests <= 0 -> 0 < windowDuration ->
     NewRateLimiter maxRequests windowDuration
     = Ok (mkRateLimiter ∅ maxRequests windowDuration))
  /\ (forall rl ip,
        reachable rl -> MaxRequests rl <= 0 ->
        AllowRequest rl ip = (false, rl) /\ GetRemainingRequests rl ip = 0).
Proof.
  split.
  - intros m w _ Hw. by apply NewRateLimiter_ok.
  - intros rl ip Hr HM.
    assert (count_of rl ip = 0) as Hc.
    { destruct (counts_bounded_count rl ip (reachable_counts_bounded rl Hr))
        as [[_ ?] | ?]; [done | lia]. }
    split.
    + apply AllowRequest_reject. lia.
    + rewrite reachable_remaining by done. lia.
Qed.

Lemma nonpositive_limit_rejects_all_witness :
  NewRateLimiter 0 rateLimitWindow = Ok (mkRateLimiter ∅ 0 rateLimitWindow)
  /\ AllowRequest (mkRateLimiter ∅ (-2) rateLimitWindow) "10.0.0.1"
     = (false, mkRateLimiter ∅ (-2) rateLimitWindow)
  /\ GetRemainingRequests (mkRateLimiter ∅ (-2) rateLimitWindow) "10.0.0.1" = 0.
Proof.
  destruct nonpositive_limit_rejects_all as (Hnew & Hrej).
  split.
  - apply Hnew; vm_compute; [discriminate | reflexivity].
  - apply Hrej.
    + apply (reach_new (-2) rateLimitWindow);
        [apply is_int_literal; vm_compute; split; discriminate ..| reflexivity].
    + vm_compute. discriminate.
Defined.

(** ** Strings *)

Lemma append_cons c s t : String c s +:+ t = String c (s +:+ t).
Proof. reflexivity. Qed.

Lemma append_empty_l t : EmptyString +:+ t = t.
Proof. reflexivity. Qed.

Lemma append_empty_r s : s +:+ EmptyString = s.
Proof. induction s as [| c s IH]; [done | by rewrite append_cons, IH]. Qed.

Lemma has_byte_append c s t :
  has_byte c (s +:+ t) = has_byte c s || has_byte c t.
Proof.
  induction s as [| c' s IH]; [done |].
  rewrite append_cons. simpl. rewrite IH. by rewrite orb_assoc.
Qed.

Lemma has_byte_cut c s t : has_byte c (s +:+ String c t) = true.
Proof.
  rewrite has_byte_append. simpl. rewrite bool_decide_eq_true_2 by done.
  apply orb_true_r.
Qed.

(** A string is cut at its first separator in one way only. *)
Lemma first_cut_unique c e1 e2 r1 r2 :
  has_byte c e1 = false -> has_byte c e2 = false ->
  e1 +:+ String c r1 = e2 +:+ String c r2 -> e1 = e2.
Proof.
  revert e2. induction e1 as [| a e1 IH]; intros [| b e2] H1 H2 Heq;
    rewrite ?append_cons, ?append_empty_l in Heq; simpl in *.
  - done.
  - injection Heq as <- _. by rewrite bool_decide_eq_true_2 in H2.
  - injection Heq as -> _. by rewrite bool_decide_eq_true_2 in H1.
  - injection Heq as -> Heq.
    apply orb_false_iff in H1 as [_ H1]. apply orb_false_iff in H2 as [_ H2].
    f_equal. by apply IH.
Qed.

(** A string is cut at its last separator in one way only. *)
Lemma last_cut_unique c p1 p2 q1 q2 :
  has_byte c q1 = false -> has_byte c q2 = false ->
  p1 +:+ String c q1 = p2 +:+ String c q2 -> p1 = p2.
Proof.
  revert p2. induction p1 as [| a p1 IH]; intros [| b p2] H1 H2 Heq;
    rewrite ?append_cons, ?append_empty_l in Heq; simpl in *.
  - done.
  - injection Heq as _ ->. by rewrite has_byte_cut in H1.
  - injection Heq as _ <-. by rewrite has_byte_cut in H2.
  - injection Heq as -> Heq. f_equal. by apply IH.
Qed.

Lemma first_entry_of_unique s e1 e2 :
  first_entry_of s e1 -> first_entry_of s e2 -> e1 = e2.
Proof.
  intros [H1 [-> | [r1 ->]]] [H2 [E | [r2 E]]].
  - done.
  - subst. by rewrite has_byte_cut in H1.
  - subst. by rewrite has_byte_cut in H2.
  - by apply (first_cut_unique _ _ _ _ _ H1 H2 E).
Qed.

Lemma before_last_colon_unique s p1 p2 :
  before_last_colon s p1 -> before_last_colon s p2 -> p1 = p2.
Proof.
  intros [[H1 ->] | [q1 [-> H1]]] [[H2 E] | [q2 [E H2]]].
  - done.
  - subst. by rewrite has_byte_cut in H1.
  - by rewrite has_byte_cut in H2.
  - by apply (last_cut_unique _ _ _ _ _ H1 H2 E).
Qed.

(** [Split] always yields a first piece, and that piece is the first
    entry. *)
Lemma Split_first s sep :
  exists e pieces,
    Split s sep = e :: pieces /\ has_byte sep e = false /\
    (e = s \/ exists rest, s = e +:+ String sep rest).
Proof.
  induction s as [| c s (e & pieces & IH & Hfree & Hcut)]; simpl.
  - exists EmptyString, []. split_and!; [done | done | by left].
  - destruct (decide (c = sep)) as [-> | Hne].
    + rewrite bool_decide_eq_true_2 by done.
      exists EmptyString, (Split s sep). split_and!; [done | done |].
      right. by exists s.
    + rewrite bool_decide_eq_false_2 by done. rewrite IH.
      exists (String c e), pieces. split_and!; [done | |].
      * simpl. by rewrite bool_decide_eq_false_2.
      * destruct Hcut as [-> | [rest ->]]; [by left |].
        right. by exists rest.
Qed.

Lemma take_str_append p t : take_str (String.length p) (p +:+ t) = p.
Proof.
  induction p as [| c p IH]; [by destruct t |].
  rewrite append_cons. simpl. by rewrite IH.
Qed.

Lemma prefix_colon s :
  String.prefix (String ":"%char EmptyString) s =
  match s with String c _ => bool_decide (c = ":"%char) | EmptyString => false end.
Proof.
  destruct s as [| c s]; [done |]. cbn [String.prefix].
  destruct (ascii_dec ":" c) as [<- | Hne].
  - rewrite bool_decide_eq_true_2 by done. by destruct s.
  - by rewrite bool_decide_eq_false_2 by congruence.
Qed.

(** [LastIndex] finds the last colon: [-1] when there is none, and else
    the length of what precedes it. *)
Lemma LastIndex_from_colon pos s :
  0 <= pos ->
  (has_byte ":"%char s = false /\ LastIndex_from pos s ":" = -1) \/
  (exists p q,
     s = p +:+ String ":"%char q /\ has_byte ":"%char q = false /\
     LastIndex_from pos s ":" = pos + Z.of_nat (String.length p)).
Proof.
  revert pos. induction s as [| c s IH]; intros pos Hpos.
  - left. done.
  - cbn [LastIndex_from]. rewrite prefix_colon.
    destruct (IH (pos + 1) ltac:(lia)) as [[Hfree ->] | (p & q & -> & Hq & ->)].
    + simpl. destruct (decide (c = ":"%char)) as [-> | Hne].
      * rewrite bool_decide_eq_true_2 by done.
        right. exists EmptyString, s. split_and!; [done | done | simpl; lia].
      * rewrite bool_decide_eq_false_2 by done. left. by rewrite Hfree.
    + destruct (Z.geb_spec (pos + 1 + Z.of_nat (String.length p)) 0); [| lia].
      right. exists (String c p), q. split_and!; [done | done |].
      cbn [String.length]. lia.
Qed.

Lemma getClientIP_fallback r :
  before_last_colon (RemoteAddr r)
    (let ip := RemoteAddr r in
     let idx := LastIndex ip ":" in
     if negb (idx =? -1) then take_str (Z.to_nat idx) ip else ip).
Proof.
  cbv zeta. generalize (RemoteAddr r) as s. intros s. unfold LastIndex.
  destruct (LastIndex_from_colon 0 s ltac:(lia))
    as [[Hfree ->] | (p & q & -> & Hq & ->)].
  - left. done.
  - right. exists q.
    destruct (Z.eqb_spec (0 + Z.of_nat (String.length p)) (-1)); [lia |].
    cbn [negb]. split; [| done].
    replace (Z.to_nat (0 + Z.of_nat (String.length p))) with (String.length p) by lia.
    by rewrite take_str_append.
Qed.

(** ** Trimming *)

Lemma append_assoc s t u : (s +:+ t) +:+ u = s +:+ t +:+ u.
Proof.
  induction s as [| c s IH]; [done |]. by rewrite !append_cons, IH.
Qed.

Lemma length_append s t :
  String.length (s +:+ t) = (String.length s + String.length t)%nat.
Proof. induction s as [| c s IH]; [done |]. rewrite append_cons. simpl. by rewrite IH. Qed.

Lemma rev_app_append s t : String.rev_app s t = String.rev s +:+ t.
Proof.
  revert t. induction s as [| c s IH]; intros t; [done |].
  unfold String.rev. simpl. rewrite (IH (String c t)), (IH (String c EmptyString)).
  by rewrite append_assoc.
Qed.

Lemma rev_cons c s : String.rev (String c s) = String.rev s +:+ String c EmptyString.
Proof. unfold String.rev at 1. simpl. apply rev_app_append. Qed.

Lemma rev_append s t : String.rev (s +:+ t) = String.rev t +:+ String.rev s.
Proof.
  induction s as [| c s IH].
  - by rewrite append_empty_l, append_empty_r.
  - by rewrite append_cons, !rev_cons, IH, append_assoc.
Qed.

Lemma rev_involutive s : String.rev (String.rev s) = s.
Proof.
  induction s as [| c s IH]; [done |].
  by rewrite rev_cons, rev_append, IH.
Qed.

Lemma length_rev s : String.length (String.rev s) = String.length s.
Proof.
  induction s as [| c s IH]; [done |].
  rewrite rev_cons, length_append, IH. simpl. lia.
Qed.

Lemma prefix_cut p s :
  String.prefix p s = true -> s = p +:+ drop_str (String.length p) s.
Proof.
  revert s. induction p as [| a p IH]; intros s H; [done |].
  destruct s as [| b s]; [done |]. cbn [String.prefix] in H.
  destruct (ascii_dec a b) as [-> |]; [| done].
  rewrite append_cons. simpl. f_equal. by apply IH.
Qed.

Lemma prefix_append p s t :
  String.prefix p s = true -> String.prefix p (s +:+ t) = true.
Proof.
  revert s. induction p as [| a p IH]; intros s H.
  - by destruct (s +:+ t).
  - destruct s as [| b s]; [done |]. rewrite append_cons.
    cbn [String.prefix] in *. destruct (ascii_dec a b); [by apply IH | done].
Qed.

Lemma strip_one_cut pats s s' :
  strip_one pats s = Some s' -> exists p, p ∈ pats /\ s = p +:+ s'.
Proof.
  induction pats as [| p pats IH]; [done |]. simpl.
  destruct (String.prefix p s) eqn:Hp.
  - intros [= <-]. exists p. split; [left | by apply prefix_cut].
  - intros (p' & Hin & ->)%IH. exists p'. split; [by right | done].
Qed.

Lemma strip_one_append pats s t :
  strip_one pats (s +:+ t) = None -> strip_one pats s = None.
Proof.
  induction pats as [| p pats IH]; [done |]. simpl.
  destruct (String.prefix p (s +:+ t)) eqn:Hp; [done |]. intros H.
  destruct (String.prefix p s) eqn:Hs; [| by apply IH].
  by rewrite (prefix_append p s t Hs) in Hp.
Qed.

Lemma made_of_append pats s t :
  made_of pats s -> made_of pats t -> made_of pats (s +:+ t).
Proof.
  induction 1 as [| p s Hp _ IH]; intros Ht; [done |].
  rewrite append_assoc. constructor; [done | by apply IH].
Qed.

Lemma made_of_one pats p : p ∈ pats -> made_of pats p.
Proof.
  intros Hp. rewrite <- (append_empty_r p). constructor; [done | constructor].
Qed.

Lemma made_of_rev pats s :
  made_of (map String.rev pats) s -> made_of pats (String.rev s).
Proof.
  induction 1 as [| p s Hp _ IH]; [constructor |].
  rewrite rev_append. apply made_of_append; [done |].
  apply list_elem_of_fmap in Hp as (p0 & -> & Hp0).
  rewrite rev_involutive. by apply made_of_one.
Qed.

(** What [strip_all] removes is made of the patterns. *)
Lemma strip_all_cut fuel pats s :
  exists l, s = l +:+ strip_all fuel pats s /\ made_of pats l.
Proof.
  revert s. induction fuel as [| fuel IH]; intros s; simpl.
  - exists EmptyString. split; [done | constructor].
  - destruct (strip_one pats s) as [s' |] eqn:E.
    + apply strip_one_cut in E as (p & Hp & ->).
      destruct (IH s') as (l & Hl & Hmade).
      exists (p +:+ l). split; [| by constructor].
      rewrite append_assoc. by rewrite <- Hl.
    + exists EmptyString. split; [done | constructor].
Qed.

(** With enough fuel, nothing is left to strip. *)
Lemma strip_all_done fuel pats s :
  Forall (fun p => p <> EmptyString) pats ->
  (String.length s <= fuel)%nat ->
  strip_one pats (strip_all fuel pats s) = None.
Proof.
  intros Hne. revert s. induction fuel as [| fuel IH]; intros s Hlen; simpl.
  - destruct s; [| simpl in Hlen; lia].
    clear Hlen. induction Hne as [| p pats Hp _ IHp]; [done |]. simpl.
    destruct p; [done | apply IHp].
  - destruct (strip_one pats s) as [s' |] eqn:E; [| done].
    apply IH. apply strip_one_cut in E as (p & Hp & ->).
    rewrite length_append in Hlen.
    assert (p <> EmptyString) as Hpne by (by eapply Forall_forall in Hne).
    destruct p; [done |]. simpl in Hlen. lia.
Qed.

Lemma space_encodings_nonempty :
  Forall (fun p => p <> EmptyString) space_encodings.
Proof. repeat (constructor; [discriminate |]). constructor. Qed.

Lemma rev_space_encodings_nonempty :
  Forall (fun p => p <> EmptyString) (map String.rev space_encodings).
Proof. repeat (constructor; [discriminate |]). constructor. Qed.

Lemma TrimLeftSpace_cut s :
  exists l, s = l +:+ TrimLeftSpace s /\ white l.
Proof. apply strip_all_cut. Qed.

Lemma TrimRightSpace_cut s :
  exists r, s = TrimRightSpace s +:+ r /\ white r.
Proof.
  unfold TrimRightSpace.
  destruct (strip_all_cut (String.length s) (map String.rev space_encodings)
              (String.rev s)) as (l & Hl & Hmade).
  exists (String.rev l). split; [| by apply made_of_rev].
  rewrite <- rev_append, <- Hl. by rewrite rev_involutive.
Qed.

Lemma prefix_self q s : String.prefix q (q +:+ s) = true.
Proof.
  induction q as [| c q IH]; [by destruct s |].
  rewrite append_cons. cbn [String.prefix]. by destruct (ascii_dec c c).
Qed.

Lemma drop_str_append q s : drop_str (String.length q) (q +:+ s) = s.
Proof. induction q as [| c q IH]; [done |]. by rewrite append_cons. Qed.

(** Two prefixes of one string: one is a prefix of the other. *)
Lemma prefix_comparable p q s :
  String.prefix p s = true -> String.prefix q s = true ->
  String.prefix p q = true \/ String.prefix q p = true.
Proof.
  revert p q. induction s as [| c s IH]; intros [| a p] [| b q] Hp Hq;
    try done; try (by left); try (by right).
  cbn [String.prefix] in *.
  destruct (ascii_dec a c) as [-> |]; [| done].
  destruct (ascii_dec b c) as [-> |]; [| done].
  destruct (ascii_dec c c); [| done]. by apply IH.
Qed.

(** No encoding of a white space code point begins another one. *)
Lemma space_encodings_prefix_free p q :
  p ∈ space_encodings -> q ∈ space_encodings ->
  String.prefix p q = true -> p = q.
Proof.
  assert (forallb (fun p => forallb (fun q =>
            implb (String.prefix p q) (String.eqb p q)) space_encodings)
            space_encodings = true) as H by (vm_compute; reflexivity).
  intros Hp%list_elem_of_In Hq%list_elem_of_In Hpre.
  rewrite forallb_forall in H. specialize (H p Hp).
  rewrite forallb_forall in H. specialize (H q Hq).
  rewrite Hpre in H. simpl in H. by apply String.eqb_eq.
Qed.

Lemma strip_one_Some pats s s' :
  strip_one pats s = Some s' ->
  exists p, p ∈ pats /\ String.prefix p s = true /\ s' = drop_str (String.length p) s.
Proof.
  induction pats as [| p pats IH]; [done |]. simpl.
  destruct (String.prefix p s) eqn:Hp.
  - intros [= <-]. exists p. split_and!; [left | done | done].
  - intros (p' & Hin & H1 & H2)%IH. exists p'. split_and!; [by right | done | done].
Qed.

Lemma strip_one_None pats s p :
  strip_one pats s = None -> p ∈ pats -> String.prefix p s = false.
Proof.
  induction pats as [| p' pats IH]; [by intros _ ?%elem_of_nil |]. simpl.
  destruct (String.prefix p' s) eqn:Hp; [done |].
  intros Hnone [-> | Hin]%elem_of_cons; [done | by apply IH].
Qed.

(** The first white space code point of a string is stripped as a whole. *)
Lemma strip_one_space q s :
  q ∈ space_encodings -> strip_one space_encodings (q +:+ s) = Some s.
Proof.
  intros Hq. destruct (strip_one space_encodings (q +:+ s)) as [s' |] eqn:E.
  - apply strip_one_Some in E as (p & Hp & Hpre & ->).
    assert (p = q) as ->.
    { destruct (prefix_comparable p q _ Hpre (prefix_self q s)) as [H | H].
      - by apply space_encodings_prefix_free.
      - symmetry. by apply space_encodings_prefix_free. }
    by rewrite drop_str_append.
  - pose proof (prefix_self q s) as Hself.
    by rewrite (strip_one_None _ _ q E Hq) in Hself.
Qed.

Lemma TrimLeftSpace_white s fuel :
  white s -> (String.length s <= fuel)%nat ->
  strip_all fuel space_encodings s = EmptyString.
Proof.
  intros Hw. revert fuel. induction Hw as [| q s Hq Hw IH]; intros fuel Hlen.
  - by destruct fuel.
  - rewrite length_append in Hlen.
    assert (q <> EmptyString) as Hne.
    { pose proof space_encodings_nonempty as Hall.
      by eapply Forall_forall in Hall. }
    destruct q as [| c q]; [done |]. simpl in Hlen.
    destruct fuel as [| fuel]; [lia |].
    cbn [strip_all]. rewrite strip_one_space by done. apply IH. lia.
Qed.

Lemma TrimSpace_white s : white s -> TrimSpace s = EmptyString.
Proof.
  intros Hw. unfold TrimSpace, TrimLeftSpace. by rewrite TrimLeftSpace_white.
Qed.

Lemma strip_all_stop fuel pats x :
  strip_one pats x = None -> strip_all fuel pats x = x.
Proof. intros H. destruct fuel; [done |]. simpl. by rewrite H. Qed.

(** With patterns none of which begins another, the pattern at the front
    is the one that is stripped. *)
Lemma strip_one_prefix_free pats q s :
  (forall p p', p ∈ pats -> p' ∈ pats -> String.prefix p p' = true -> p = p') ->
  q ∈ pats -> strip_one pats (q +:+ s) = Some s.
Proof.
  intros Hfree Hq. destruct (strip_one pats (q +:+ s)) as [s' |] eqn:E.
  - apply strip_one_Some in E as (p & Hp & Hpre & ->).
    assert (p = q) as ->.
    { destruct (prefix_comparable p q _ Hpre (prefix_self q s)) as [H | H].
      - by apply Hfree.
      - symmetry. by apply Hfree. }
    by rewrite drop_str_append.
  - pose proof (prefix_self q s) as Hself.
    by rewrite (strip_one_None _ _ q E Hq) in Hself.
Qed.

(** Stripping removes a run of patterns exactly, when what follows does
    not begin with a pattern. *)
Lemma strip_all_exact pats l x fuel :
  (forall p p', p ∈ pats -> p' ∈ pats -> String.prefix p p' = true -> p = p') ->
  made_of pats l -> strip_one pats x = None ->
  (String.length l <= fuel)%nat ->
  strip_all fuel pats (l +:+ x) = x.
Proof.
  intros Hfree Hl Hx. revert fuel.
  induction Hl as [| q l Hq Hl IH]; intros fuel Hlen.
  - by apply strip_all_stop.
  - destruct q as [| c q]; [by apply IH |].
    rewrite length_append in Hlen. simpl in Hlen.
    destruct fuel as [| fuel]; [lia |].
    rewrite append_assoc. cbn [strip_all].
    rewrite strip_one_prefix_free by done. apply IH. lia.
Qed.

(** No encoding of a white space code point ends another one. *)
Lemma rev_space_encodings_prefix_free p q :
  p ∈ map String.rev space_encodings -> q ∈ map String.rev space_encodings ->
  String.prefix p q = true -> p = q.
Proof.
  assert (forallb (fun p => forallb (fun q =>
            implb (String.prefix p q) (String.eqb p q))
            (map String.rev space_encodings))
            (map String.rev space_encodings) = true) as H by (vm_compute; reflexivity).
  intros Hp%list_elem_of_In Hq%list_elem_of_In Hpre.
  rewrite forallb_forall in H. specialize (H p Hp).
  rewrite forallb_forall in H. specialize (H q Hq).
  rewrite Hpre in H. simpl in H. by apply String.eqb_eq.
Qed.

(** A byte inside an encoding of a white space code point, after its
    first byte, never begins such an encoding. *)
Lemma space_encodings_inner a t c u c' f :
  String a (t +:+ String c u) ∈ space_encodings ->
  String c' f ∈ space_encodings -> c <> c'.
Proof.
  assert (forallb (fun p => forallb (fun q =>
            match p, q with
            | String _ tl, String c0 _ => negb (has_byte c0 tl)
            | _, _ => true
            end) space_encodings) space_encodings = true) as H
    by (vm_compute; reflexivity).
  intros Hp%list_elem_of_In Hq%list_elem_of_In ->.
  rewrite forallb_forall in H. specialize (H _ Hp).
  rewrite forallb_forall in H. specialize (H _ Hq).
  cbn beta iota in H. by rewrite has_byte_cut in H.
Qed.

Lemma made_of_rev_2 pats s :
  made_of pats s -> made_of (map String.rev pats) (String.rev s).
Proof.
  induction 1 as [| p s Hp _ IH]; [constructor |].
  rewrite rev_append. apply made_of_append; [done |].
  apply made_of_one. apply list_elem_of_fmap. by exists p.
Qed.

(** The two predicates, in terms of the stripping function. *)
Lemma leading_space_strip s :
  leading_space s <-> strip_one space_encodings s <> None.
Proof.
  split.
  - intros (p & rest & Hp & ->) Hnone.
    pose proof (prefix_self p rest) as Hself.
    by rewrite (strip_one_None _ _ p Hnone Hp) in Hself.
  - intros Hsome. destruct (strip_one space_encodings s) as [s' |] eqn:E; [| done].
    apply strip_one_cut in E as (p & Hp & ->). by exists p, s'.
Qed.

Lemma trailing_space_strip s :
  trailing_space s
  <-> strip_one (map String.rev space_encodings) (String.rev s) <> None.
Proof.
  split.
  - intros (p & rest & Hp & ->) Hnone. rewrite rev_append in Hnone.
    pose proof (prefix_self (String.rev p) (String.rev rest)) as Hself.
    rewrite (strip_one_None _ _ (String.rev p) Hnone) in Hself; [done |].
    apply list_elem_of_fmap. by exists p.
  - intros Hsome.
    destruct (strip_one (map String.rev space_encodings) (String.rev s))
      as [s' |] eqn:E; [| done].
    apply strip_one_cut in E as (q & Hq & E).
    apply list_elem_of_fmap in Hq as (p & -> & Hp).
    exists p, (String.rev s').
    rewrite <- (rev_involutive s), E, rev_append. by rewrite rev_involutive.
Qed.

(** [TrimSpace] trims white space, in the sense of [trimmed_of]. *)
Lemma TrimSpace_trimmed s : trimmed_of s (TrimSpace s).
Proof.
  unfold trimmed_of, TrimSpace.
  destruct (TrimLeftSpace_cut s) as (l & Hl & Hwl).
  destruct (TrimRightSpace_cut (TrimLeftSpace s)) as (r & Hr & Hwr).
  split_and!.
  - exists l, r. split_and!; [| done | done]. by rewrite <- Hr.
  - intros (p & rest & Hp & Hlead).
    assert (strip_one space_encodings (TrimLeftSpace s) = None) as Hnone.
    { apply strip_all_done; [apply space_encodings_nonempty | done]. }
    apply (leading_space_strip (TrimLeftSpace s)); [| done].
    exists p, (rest +:+ r). split; [done |].
    rewrite Hr at 1. by rewrite Hlead, append_assoc.
  - intros Htrail. apply trailing_space_strip in Htrail. apply Htrail.
    unfold TrimRightSpace. rewrite rev_involutive.
    apply strip_all_done; [apply rev_space_encodings_nonempty |].
    by rewrite length_rev.
Qed.

(** White space after a string that does not begin with white space does
    not make it begin with white space. *)
Lemma strip_one_across t r :
  t <> EmptyString -> ~ leading_space t -> white r ->
  strip_one space_encodings (t +:+ r) = None.
Proof.
  intros Hne Hlead Hw.
  destruct (strip_one space_encodings (t +:+ r)) as [s' |] eqn:E; [| done].
  exfalso. apply strip_one_Some in E as (p & Hp & Hpre & _).
  destruct (prefix_comparable p t _ Hpre (prefix_self t r)) as [Hpt | Htp].
  - apply Hlead. exists p, (drop_str (String.length p) t). split; [done |].
    by apply prefix_cut.
  - apply prefix_cut in Htp.
    destruct (drop_str (String.length t) p) as [| c u].
    + apply Hlead. exists p, EmptyString. split; [done |].
      rewrite Htp at 1. by rewrite !append_empty_r.
    + apply prefix_cut in Hpre.
      rewrite Htp, append_assoc in Hpre. apply (inj (String.app t)) in Hpre.
      destruct t as [| a t]; [done |]. rewrite append_cons in Htp.
      rewrite Htp in Hp.
      unfold white in Hw. rewrite Hpre in Hw.
      inversion Hw as [| f r' Hf Hr' Hfr].
      destruct f as [| c' f].
      { pose proof space_encodings_nonempty as Hall.
        by eapply Forall_forall in Hall. }
      rewrite !append_cons in Hfr. injection Hfr as -> _.
      by apply (space_encodings_inner a t c u c f Hp Hf).
Qed.

(** [trimmed_of] has one solution, and [TrimSpace] computes it. *)
Lemma trimmed_of_TrimSpace s t : trimmed_of s t -> t = TrimSpace s.
Proof.
  intros ((l & r & -> & Hl & Hr) & Hlead & Htrail).
  assert (TrimRightSpace (t +:+ r) = t) as Hright.
  { unfold TrimRightSpace. rewrite rev_append.
    rewrite strip_all_exact.
    - apply rev_involutive.
    - apply rev_space_encodings_prefix_free.
    - by apply made_of_rev_2.
    - destruct (strip_one (map String.rev space_encodings) (String.rev t)) eqn:E;
        [| done].
      exfalso. apply Htrail, trailing_space_strip. by rewrite E.
    - rewrite length_rev, length_append. lia. }
  unfold TrimSpace, TrimLeftSpace.
  destruct (decide (t = EmptyString)) as [-> | Hne].
  - rewrite append_empty_l.
    assert (strip_all (String.length (l +:+ r)) space_encodings
              ((l +:+ r) +:+ EmptyString) = EmptyString) as Hall.
    { apply strip_all_exact; [apply space_encodings_prefix_free | | done | done].
      by apply made_of_append. }
    rewrite append_empty_r in Hall. by rewrite Hall.
  - rewrite strip_all_exact; [by rewrite Hright | apply space_encodings_prefix_free
                               | done | by apply strip_one_across |].
    rewrite length_append. lia.
Qed.

Lemma getClientIP_resolves r : resolves_to r (getClientIP r).
Proof.
  unfold resolves_to, getClientIP.
  set (forwarded := Header_Get (Header r) "X-Forwarded-For").
  set (realIP := Header_Get (Header r) "X-Real-IP").
  destruct (decide (forwarded <> EmptyString)) as [Hf | Hf].
  - rewrite bool_decide_eq_false_2 by done. simpl.
    destruct (Split_first forwarded ","%char) as (e & pieces & -> & Hfree & Hcut).
    exists e. split; [done | apply TrimSpace_trimmed].
  - rewrite bool_decide_eq_true_2 by (by destruct (decide (forwarded = EmptyString))).
    simpl. destruct (decide (realIP <> EmptyString)) as [Hr | Hr].
    + rewrite bool_decide_eq_false_2 by done. apply TrimSpace_trimmed.
    + rewrite bool_decide_eq_true_2 by (by destruct (decide (realIP = EmptyString))).
      simpl. apply getClientIP_fallback.
Qed.

Lemma resolves_to_unique r id1 id2 :
  resolves_to r id1 -> resolves_to r id2 -> id1 = id2.
Proof.
  unfold resolves_to.
  destruct (decide (_ <> EmptyString)).
  - intros (e1 & H1 & T1) (e2 & H2 & T2).
    rewrite (first_entry_of_unique _ _ _ H1 H2) in T1.
    by rewrite (trimmed_of_TrimSpace _ _ T1), (trimmed_of_TrimSpace _ _ T2).
  - destruct (decide (_ <> EmptyString)).
    + intros T1 T2.
      by rewrite (trimmed_of_TrimSpace _ _ T1), (trimmed_of_TrimSpace _ _ T2).
    + apply before_last_colon_unique.
Qed.

(** ** The client address resolver *)

(** C8. [getClientIP] follows the resolution policy, and the policy fixes
    its result: when the [X-Forwarded-For] header is not empty, the first
    comma-separated entry of it, trimmed of white space; otherwise, when
    the [X-Real-IP] header is not empty, its value trimmed of white space;
    otherwise [RemoteAddr] without the suffix that starts at its last
    colon, and [RemoteAddr] itself when it has no colon.  Trimmed of white
    space means: white space code points are taken away at the two ends
    and what is left neither begins nor ends with one; this has one
    solution, the one [TrimSpace] computes.  In particular
    [X-Forwarded-For: 1.2.3.4, 5.6.7.8] gives [1.2.3.4], [X-Real-IP:
    9.8.7.6] without [X-Forwarded-For] gives [9.8.7.6], and the address
    [10.0.0.1:54321] with neither header gives [10.0.0.1]; blanks around
    the first entry, and a no-break space and blanks around the real-IP
    value, are removed. *)
Theorem getClientIP_policy :
  (forall r id, resolves_to r id <-> id = getClientIP r)
  /\ (forall s t, trimmed_of s t <-> t = TrimSpace s)
  /\ (forall r,
        Header_Get (Header r) "X-Forwarded-For" = "1.2.3.4, 5.6.7.8" ->
        getClientIP r = "1.2.3.4")
  /\ (forall r,
        Header_Get (Header r) "X-Forwarded-For" = EmptyString ->
        Header_Get (Header r) "X-Real-IP" = "9.8.7.6" ->
        getClientIP r = "9.8.7.6")
  /\ (forall r,
        Header_Get (Header r) "X-Forwarded-For" = EmptyString ->
        Header_Get (Header r) "X-Real-IP" = EmptyString ->
        RemoteAddr r = "10.0.0.1:54321" ->
        getClientIP r = "10.0.0.1")
  /\ (forall r,
        Header_Get (Header r) "X-Forwarded-For" = "  1.2.3.4 , 5.6.7.8 " ->
        getClientIP r = "1.2.3.4")
  /\ (forall r,
        Header_Get (Header r) "X-Forwarded-For" = EmptyString ->
        Header_Get (Header r) "X-Real-IP"
        = bytes_str [0xC2; 0xA0] +:+ " 9.8.7.6  " ->
        getClientIP r = "9.8.7.6").
Proof.
  split_and!.
  - intros r id. split.
    + intros H. apply (resolves_to_unique r); [done | apply getClientIP_resolves].
    + intros ->. apply getClientIP_resolves.
  - intros s t. split; [apply trimmed_of_TrimSpace |].
    intros ->. apply TrimSpace_trimmed.
  - intros r Hf. unfold getClientIP. rewrite Hf. reflexivity.
  - intros r Hf Hr. unfold getClientIP. rewrite Hf, Hr. reflexivity.
  - intros r Hf Hr Ha. unfold getClientIP. rewrite Hf, Hr, Ha. reflexivity.
  - intros r Hf. unfold getClientIP. rewrite Hf. reflexivity.
  - intros r Hf Hr. unfold getClientIP. rewrite Hf, Hr. reflexivity.
Qed.

Lemma getClientIP_policy_witness :
  getClientIP (mkRequest "GET"
                 (Header_Set (Header_Set ∅ "X-Real-IP" "9.8.7.6")
                             "X-Forwarded-For" "1.2.3.4, 5.6.7.8")
                 "10.0.0.1:54321") = "1.2.3.4"
  /\ getClientIP (mkRequest "GET" (Header_Set ∅ "X-Real-IP" "9.8.7.6")
                            "10.0.0.1:54321") = "9.8.7.6"
  /\ getClientIP (mkRequest "GET" ∅ "10.0.0.1:54321") = "10.0.0.1"
  /\ getClientIP (mkRequest "GET"
                    (Header_Set ∅ "X-Forwarded-For" "  1.2.3.4 , 5.6.7.8 ")
                    "10.0.0.1:54321") = "1.2.3.4"
  /\ getClientIP (mkRequest "GET"
                    (Header_Set ∅ "X-Real-IP"
                       (bytes_str [0xC2; 0xA0] +:+ " 9.8.7.6  "))
                    "10.0.0.1:54321") = "9.8.7.6"
  /\ ~ trimmed_of "  1.2.3.4 " "  1.2.3.4 ".
Proof.
  destruct getClientIP_policy as (_ & Htrim & Hf & Hr & Ha & Hfw & Hrw).
  split_and!.
  - apply Hf. reflexivity.
  - apply Hr; reflexivity.
  - apply Ha; reflexivity.
  - apply Hfw. reflexivity.
  - apply Hrw; reflexivity.
  - intros H%Htrim. vm_compute in H. discriminate.
Defined.

(** ** The admission gate *)

Lemma RateLimitMiddleware_allowed limiter r :
  fst (AllowRequest limiter (getClientIP r)) = true ->
  RateLimitMiddleware limiter r
  = ([Next r], snd (AllowRequest limiter (getClientIP r))).
Proof.
  unfold RateLimitMiddleware. destruct (AllowRequest _ _) as [b rl']; simpl.
  by intros ->.
Qed.

Lemma RateLimitMiddleware_rejected limiter r :
  fst (AllowRequest limiter (getClientIP r)) = false ->
  RateLimitMiddleware limiter r
  = ([HeaderSet "Content-Type" "application/json";
      WriteHeader StatusTooManyRequests;
      Encode errorResponse], limiter).
Proof.
  unfold RateLimitMiddleware, AllowRequest.
  destruct (_ >=? _); simpl; [done | discriminate].
Qed.

(** C7. The gate calls the wrapped handler, with the request it received
    and with the response writer untouched, exactly when [AllowRequest] on
    the resolved identifier returns [true]; the wrapped handler then
    decides the response.  When [AllowRequest] returns [false] the gate
    does not call the handler: it sets the content type to
    application/json, writes status 429 and the JSON document
    [{error: Rate limit exceeded}], and the limiter is as it was. *)
Theorem RateLimitMiddleware_gate (limiter : RateLimiter) (r : Request) :
  let allowed := fst (AllowRequest limiter (getClientIP r)) in
  let limiter' := snd (AllowRequest limiter (getClientIP r)) in
  (forall r', Next r' ∈ fst (RateLimitMiddleware limiter r)
              <-> allowed = true /\ r' = r)
  /\ (allowed = true ->
      RateLimitMiddleware limiter r = ([Next r], limiter')
      /\ forall next w, limited next w r limiter = next w r limiter')
  /\ (allowed = false ->
      RateLimitMiddleware limiter r
      = ([HeaderSet "Content-Type" "application/json";
          WriteHeader 429;
          Encode {[ "error" := "Rate limit exceeded" ]}], limiter)
      /\ forall next,
           limited next newResponse r limiter
           = (mkResponse (Some 429)
                         {[ "Content-Type" := ["application/json"] ]}
                         {[ "Content-Type" := ["application/json"] ]}
                         [ {[ "error" := "Rate limit exceeded" ]} ],
              limiter)).
Proof.
  intros allowed limiter'. split_and!.
  - intros r'. destruct allowed eqn:Ha; subst allowed.
    + rewrite RateLimitMiddleware_allowed by done. simpl.
      rewrite list_elem_of_singleton. split; [intros [= ->]; done | intros [_ ->]; done].
    + rewrite RateLimitMiddleware_rejected by done. simpl.
      split; [| intros [? _]; done].
      intros H. repeat (apply elem_of_cons in H as [H | H]; [discriminate |]).
      by apply elem_of_nil in H.
  - intros Ha. split; [by apply RateLimitMiddleware_allowed |].
    intros next w. unfold limited. rewrite RateLimitMiddleware_allowed by done.
    subst limiter'. simpl. by destruct (next w r _).
  - intros Ha. split; [by apply RateLimitMiddleware_rejected |].
    intros next. unfold limited. rewrite RateLimitMiddleware_rejected by done.
    reflexivity.
Qed.

Lemma RateLimitMiddleware_gate_witness :
  RateLimitMiddleware mainLimiter (mkRequest "GET" ∅ "10.0.0.1:54321")
  = ([Next (mkRequest "GET" ∅ "10.0.0.1:54321")],
     snd (AllowRequest mainLimiter "10.0.0.1"))
  /\ fst (RateLimitMiddleware
            (exec (replicate 5 (CallAllow "10.0.0.1")) mainLimiter)
            (mkRequest "GET" ∅ "10.0.0.1:54321"))
     = [HeaderSet "Content-Type" "application/json";
        WriteHeader 429;
        Encode {[ "error" := "Rate limit exceeded" ]}].
Proof.
  split.
  - destruct (RateLimitMiddleware_gate mainLimiter
                (mkRequest "GET" ∅ "10.0.0.1:54321")) as (_ & Hok & _).
    destruct Hok as [-> _]; reflexivity.
  - destruct (RateLimitMiddleware_gate
                (exec (replicate 5 (CallAllow "10.0.0.1")) mainLimiter)
                (mkRequest "GET" ∅ "10.0.0.1:54321")) as (_ & _ & Hrej).
    destruct Hrej as [-> _]; reflexivity.
Defined.

(** ** Concurrent callers *)

Import Concurrent.

Lemma tally_nonneg P ws : 0 <= tally P ws.
Proof. induction ws as [| w ws IH]; simpl; [lia |]. destruct (P w); lia. Qed.

Lemma tally_le_length P ws : tally P ws <= Z.of_nat (length ws).
Proof. induction ws as [| w ws IH]; simpl; [lia |]. destruct (P w); lia. Qed.

(** Replacing one worker changes a tally by what the two workers count. *)
Lemma tally_insert P (ws : list worker) i w w' :
  ws !! i = Some w ->
  tally P (<[i := w']> ws)
  = tally P ws - (if P w then 1 else 0) + (if P w' then 1 else 0).
Proof.
  revert i. induction ws as [| w0 ws IH]; intros [| i] Hi; try done; simpl in *.
  - injection Hi as ->. lia.
  - rewrite (IH i Hi). lia.
Qed.

Lemma tally_replicate P w n :
  tally P (replicate n w) = if P w then Z.of_nat n else 0.
Proof.
  induction n as [| n IH]; simpl; [by destruct (P w) |].
  rewrite IH. destruct (P w); lia.
Qed.

Lemma lookup_set_pc (ws : list worker) i w x j w' :
  ws !! i = Some w -> <[i := x]> ws !! j = Some w' ->
  (j = i /\ w' = x) \/ (j <> i /\ ws !! j = Some w').
Proof.
  intros Hi Hj. destruct (decide (j = i)) as [-> | Hne].
  - rewrite list_lookup_insert_eq in Hj by (by eapply lookup_lt_Some).
    left. by injection Hj as <-.
  - rewrite list_lookup_insert_ne in Hj by done. by right.
Qed.

Lemma lookup_set_pc_same (ws : list worker) i w x :
  ws !! i = Some w -> <[i := x]> ws !! i = Some x.
Proof. intros Hi. apply list_lookup_insert_eq. by eapply lookup_lt_Some. Qed.

(** When all workers have returned, the tallies of the decided calls are
    the tallies of the returned values. *)
Lemma all_done_tallies ws :
  forallb is_done ws = true ->
  tally accepted ws = tally (has_returned true) ws
  /\ tally rejected ws = tally (has_returned false) ws
  /\ tally (has_returned true) ws + tally (has_returned false) ws
     = Z.of_nat (length ws).
Proof.
  induction ws as [| [ip p] ws IH]; simpl; [done |].
  intros [Hd Hds]%andb_true_iff. destruct (IH Hds) as (-> & -> & Hsum).
  unfold is_done, accepted, rejected, has_returned in *; simpl in *.
  destruct p as [| | | | |[]]; try done; simpl; lia.
Qed.

Lemma not_all_done ws :
  forallb is_done ws = false ->
  exists i w, ws !! i = Some w /\ is_done w = false.
Proof.
  induction ws as [| w ws IH]; simpl; [done |].
  destruct (is_done w) eqn:E; simpl.
  - intros (i & w' & Hi & Hw)%IH. by exists (S i), w'.
  - intros _. by exists 0%nat, w.
Qed.

Lemma spawn_invariant rl ip n :
  Requests rl !! ip = None -> 0 <= MaxRequests rl ->
  invariant ip (MaxRequests rl) n (spawn rl ip n).
Proof.
  intros Habs HM.
  assert (count_of rl ip = 0) as Hc by (unfold count_of; by rewrite Habs).
  constructor; simpl.
  - done.
  - apply length_replicate.
  - intros j w [-> _]%lookup_replicate_1. done.
  - intros j w [-> _]%lookup_replicate_1. done.
  - intros j w [-> _]%lookup_replicate_1. done.
  - by rewrite tally_replicate.
  - rewrite tally_replicate. simpl. lia.
  - lia.
Qed.

(** Every step of every worker keeps the invariant. *)
Lemma step_worker_invariant ip M n i s s' :
  is_int M -> invariant ip M n s -> step_worker i s = Some s' ->
  invariant ip M n s'.
Proof.
  intros HM [Hlim Hsize Hip Hmutex Hview Hcount Hrej Hle] Hstep.
  unfold step_worker in Hstep.
  destruct (sys_workers s !! i) as [[wip p] |] eqn:Hi; [| done].
  pose proof (Hip _ _ Hi) as Hwip; simpl in Hwip; subst wip.
  pose proof (Hview _ _ Hi) as Hvi. unfold view_ok in Hvi; simpl in Hvi.
  assert (forall j w', j <> i -> sys_workers s !! j = Some w' -> critical w' = true ->
                       critical (mkWorker ip p) = true -> False) as Hexcl.
  { intros j w' Hne Hj Hc Hci. destruct (sys_locked s).
    - destruct Hmutex as (h & wh & Hh & _ & Hothers).
      destruct (decide (i = h)) as [-> | Hih].
      + rewrite (Hothers j w' Hne Hj) in Hc. done.
      + rewrite (Hothers i _ Hih Hi) in Hci. done.
    - rewrite (Hmutex j w' Hj) in Hc. done. }
  destruct p as [| | c | c | b | b]; simpl in Hstep.
  - (* Lock *)
    destruct (sys_locked s) eqn:Hl; [done |]. injection Hstep as <-.
    constructor; simpl; unfold set_pc.
    + done.
    + by rewrite length_insert.
    + intros j w Hj. apply (lookup_set_pc _ _ _ _ _ _ Hi) in Hj as [[_ ->] | [_ Hj]];
        [done | by eapply Hip].
    + exists i, (mkWorker ip AtRead). split_and!;
        [by eapply lookup_set_pc_same | done |].
      intros j w' Hne Hj. rewrite list_lookup_insert_ne in Hj by done.
      by eapply Hmutex.
    + intros j w Hj. apply (lookup_set_pc _ _ _ _ _ _ Hi) in Hj as [[_ ->] | [_ Hj]];
        [done | by eapply Hview].
    + by rewrite (tally_insert _ _ _ _ _ Hi), Hcount; simpl; lia.
    + rewrite (tally_insert _ _ _ _ _ Hi); simpl. intros H. apply Hrej. lia.
    + done.
  - (* Read *)
    injection Hstep as <-.
    assert (sys_locked s = true) as Hl.
    { destruct (sys_locked s); [done |]. by specialize (Hmutex _ _ Hi). }
    constructor; simpl; unfold set_pc.
    + done.
    + by rewrite length_insert.
    + intros j w Hj. apply (lookup_set_pc _ _ _ _ _ _ Hi) in Hj as [[_ ->] | [_ Hj]];
        [done | by eapply Hip].
    + rewrite Hl. exists i, (mkWorker ip (AtCompare (count_of (sys_rl s) ip))).
      split_and!; [by eapply lookup_set_pc_same | done |].
      intros j w' Hne Hj. rewrite list_lookup_insert_ne in Hj by done.
      destruct (critical w') eqn:Hc; [| done]. exfalso. by eapply Hexcl.
    + intros j w Hj. apply (lookup_set_pc _ _ _ _ _ _ Hi) in Hj as [[_ ->] | [_ Hj]];
        [done | by eapply Hview].
    + by rewrite (tally_insert _ _ _ _ _ Hi), Hcount; simpl; lia.
    + rewrite (tally_insert _ _ _ _ _ Hi); simpl. intros H. apply Hrej. lia.
    + done.
  - (* Compare *)
    assert (sys_locked s = true) as Hl.
    { destruct (sys_locked s); [done |]. by specialize (Hmutex _ _ Hi). }
    destruct (Z.geb_spec c (MaxRequests (sys_rl s))) as [Hge | Hlt];
      injection Hstep as <-; constructor; simpl; unfold set_pc.
    + done.
    + by rewrite length_insert.
    + intros j w Hj. apply (lookup_set_pc _ _ _ _ _ _ Hi) in Hj as [[_ ->] | [_ Hj]];
        [done | by eapply Hip].
    + rewrite Hl. exists i, (mkWorker ip (AtUnlock false)).
      split_and!; [by eapply lookup_set_pc_same | done |].
      intros j w' Hne Hj. rewrite list_lookup_insert_ne in Hj by done.
      destruct (critical w') eqn:Hc; [| done]. exfalso. by eapply Hexcl.
    + intros j w Hj. apply (lookup_set_pc _ _ _ _ _ _ Hi) in Hj as [[_ ->] | [_ Hj]];
        [done | by eapply Hview].
    + by rewrite (tally_insert _ _ _ _ _ Hi), Hcount; simpl; lia.
    + intros _. lia.
    + done.
    + done.
    + by rewrite length_insert.
    + intros j w Hj. apply (lookup_set_pc _ _ _ _ _ _ Hi) in Hj as [[_ ->] | [_ Hj]];
        [done | by eapply Hip].
    + rewrite Hl. exists i, (mkWorker ip (AtStore c)).
      split_and!; [by eapply lookup_set_pc_same | done |].
      intros j w' Hne Hj. rewrite list_lookup_insert_ne in Hj by done.
      destruct (critical w') eqn:Hc; [| done]. exfalso. by eapply Hexcl.
    + intros j w Hj. apply (lookup_set_pc _ _ _ _ _ _ Hi) in Hj as [[_ ->] | [_ Hj]];
        [done | by eapply Hview].
    + by rewrite (tally_insert _ _ _ _ _ Hi), Hcount; simpl; lia.
    + rewrite (tally_insert _ _ _ _ _ Hi); simpl. intros H. apply Hrej. lia.
    + done.
  - (* Store *)
    injection Hstep as <-. destruct Hvi as [Hc Hlt].
    assert (sys_locked s = true) as Hl.
    { destruct (sys_locked s); [done |]. by specialize (Hmutex _ _ Hi). }
    assert (0 <= c) as Hc0.
    { rewrite Hc, Hcount. apply tally_nonneg. }
    assert (wrap_int (c + 1) = c + 1) as Hwrap.
    { apply wrap_int_id. int_arith. }
    assert (tally rejected (sys_workers s) = 0) as Hnorej.
    { pose proof (tally_nonneg rejected (sys_workers s)).
      destruct (decide (0 < tally rejected (sys_workers s))) as [Hpos |]; [| lia].
      specialize (Hrej Hpos). lia. }
    rewrite Hwrap.
    constructor; simpl; unfold set_pc.
    + done.
    + by rewrite length_insert.
    + intros j w Hj. apply (lookup_set_pc _ _ _ _ _ _ Hi) in Hj as [[_ ->] | [_ Hj]];
        [done | by eapply Hip].
    + rewrite Hl. exists i, (mkWorker ip (AtUnlock true)).
      split_and!; [by eapply lookup_set_pc_same | done |].
      intros j w' Hne Hj. rewrite list_lookup_insert_ne in Hj by done.
      destruct (critical w') eqn:Hcr; [| done]. exfalso. by eapply Hexcl.
    + intros j w Hj. apply (lookup_set_pc _ _ _ _ _ _ Hi) in Hj as [[_ ->] | [Hne Hj]];
        [done |].
      destruct (critical w) eqn:Hcr; [exfalso; by eapply Hexcl |].
      unfold view_ok. unfold critical in Hcr. by destruct (w_pc w).
    + rewrite count_of_insert_eq, (tally_insert _ _ _ _ _ Hi); simpl. lia.
    + rewrite (tally_insert _ _ _ _ _ Hi); simpl. lia.
    + rewrite count_of_insert_eq. lia.
  - (* Unlock *)
    injection Hstep as <-.
    assert (sys_locked s = true) as Hl.
    { destruct (sys_locked s); [done |]. by specialize (Hmutex _ _ Hi). }
    constructor; simpl; unfold set_pc.
    + done.
    + by rewrite length_insert.
    + intros j w Hj. apply (lookup_set_pc _ _ _ _ _ _ Hi) in Hj as [[_ ->] | [_ Hj]];
        [done | by eapply Hip].
    + intros j w' Hj.
      apply (lookup_set_pc _ _ _ _ _ _ Hi) in Hj as [[_ ->] | [Hne Hj]]; [done |].
      destruct (critical w') eqn:Hcr; [| done]. exfalso. by eapply Hexcl.
    + intros j w Hj. apply (lookup_set_pc _ _ _ _ _ _ Hi) in Hj as [[_ ->] | [_ Hj]];
        [done | by eapply Hview].
    + rewrite (tally_insert _ _ _ _ _ Hi), Hcount. destruct b; simpl; lia.
    + rewrite (tally_insert _ _ _ _ _ Hi).
      destruct b; simpl; intros H; apply Hrej; lia.
    + done.
  - done.
Qed.

Lemma run_app sched1 sched2 s : run (sched1 ++ sched2) s = run sched2 (run sched1 s).
Proof.
  revert s. induction sched1 as [| i sched1 IH]; intros s; simpl; [done | apply IH].
Qed.

Lemma run_invariant ip M n sched s :
  is_int M -> invariant ip M n s -> invariant ip M n (run sched s).
Proof.
  intros HM. revert s. induction sched as [| i sched IH]; intros s Hinv; simpl; [done |].
  apply IH. destruct (step_worker i s) as [s' |] eqn:E; simpl; [| done].
  by eapply step_worker_invariant.
Qed.

(** No deadlock: while a worker has not returned, some worker can move. *)
Lemma step_worker_progress ip M n s :
  invariant ip M n s -> all_done s = false ->
  exists i s', step_worker i s = Some s'.
Proof.
  intros [_ _ _ Hmutex _ _ _ _] Hnd.
  apply not_all_done in Hnd as (i & w & Hi & Hw).
  destruct (sys_locked s) eqn:Hl.
  - destruct Hmutex as (h & [hip hp] & Hh & Hc & _).
    exists h. unfold step_worker. rewrite Hh.
    destruct hp; try done; try by eexists.
    destruct (_ >=? _); by eexists.
  - specialize (Hmutex _ _ Hi). destruct w as [wip p].
    exists i. unfold step_worker. rewrite Hi, Hl.
    destruct p; try done. by eexists.
Qed.

Lemma work_left_nonneg ws : 0 <= work_left ws.
Proof.
  induction ws as [| [ip p] ws IH]; simpl; [lia |].
  unfold steps_left; simpl. destruct p; lia.
Qed.

Lemma work_left_insert (ws : list worker) i w w' :
  ws !! i = Some w ->
  work_left (<[i := w']> ws) = work_left ws - steps_left w + steps_left w'.
Proof.
  revert i. induction ws as [| w0 ws IH]; intros [| i] Hi; try done; simpl in *.
  - injection Hi as ->. lia.
  - rewrite (IH i Hi). lia.
Qed.

(** Every step uses up some of the work that is left. *)
Lemma step_worker_decreases i s s' :
  step_worker i s = Some s' ->
  work_left (sys_workers s') < work_left (sys_workers s).
Proof.
  unfold step_worker.
  destruct (sys_workers s !! i) as [[ip p] |] eqn:Hi; [| done].
  destruct p; simpl.
  - destruct (sys_locked s); [done |]. intros [= <-]. simpl. unfold set_pc.
    rewrite (work_left_insert _ _ _ _ Hi). unfold steps_left; simpl. lia.
  - intros [= <-]. simpl. unfold set_pc.
    rewrite (work_left_insert _ _ _ _ Hi). unfold steps_left; simpl. lia.
  - destruct (_ >=? _); intros [= <-]; simpl; unfold set_pc;
      rewrite (work_left_insert _ _ _ _ Hi); unfold steps_left; simpl; lia.
  - intros [= <-]. simpl. unfold set_pc.
    rewrite (work_left_insert _ _ _ _ Hi). unfold steps_left; simpl. lia.
  - intros [= <-]. simpl. unfold set_pc.
    rewrite (work_left_insert _ _ _ _ Hi). unfold steps_left; simpl. lia.
  - done.
Qed.

(** From any instant, the workers can all be brought to return. *)
Lemma run_to_completion ip M n s :
  is_int M -> invariant ip M n s ->
  exists sched, all_done (run sched s) = true.
Proof.
  intros HM.
  assert (forall k s, work_left (sys_workers s) <= Z.of_nat k ->
                      invariant ip M n s ->
                      exists sched, all_done (run sched s) = true) as Hk.
  { clear s. induction k as [| k IH]; intros s Hwork Hinv.
    - destruct (all_done s) eqn:Hd; [by exists [] |].
      destruct (step_worker_progress _ _ _ _ Hinv Hd) as (i & s' & Hs).
      pose proof (step_worker_decreases _ _ _ Hs).
      pose proof (work_left_nonneg (sys_workers s')). lia.
    - destruct (all_done s) eqn:Hd; [by exists [] |].
      destruct (step_worker_progress _ _ _ _ Hinv Hd) as (i & s' & Hs).
      pose proof (step_worker_decreases _ _ _ Hs).
      destruct (IH s') as (sched & Hsched); [lia | by eapply step_worker_invariant |].
      exists (i :: sched). simpl. by rewrite Hs. }
  intros Hinv.
  apply (Hk (Z.to_nat (work_left (sys_workers s)))); [| done].
  pose proof (work_left_nonneg (sys_workers s)). lia.
Qed.

(** The step of worker [i], spelled out by its program point. *)
Lemma step_worker_at rl locked (ws : list worker) i ip p :
  (i < length ws)%nat ->
  step_worker i (mkSystem rl locked (<[i := mkWorker ip p]> ws)) =
  match p with
  | AtLock =>
      if locked then None
      else Some (mkSystem rl true (<[i := mkWorker ip AtRead]> ws))
  | AtRead =>
      Some (mkSystem rl locked (<[i := mkWorker ip (AtCompare (count_of rl ip))]> ws))
  | AtCompare c =>
      if c >=? MaxRequests rl
      then Some (mkSystem rl locked (<[i := mkWorker ip (AtUnlock false)]> ws))
      else Some (mkSystem rl locked (<[i := mkWorker ip (AtStore c)]> ws))
  | AtStore c =>
      Some (mkSystem
              (mkRateLimiter (<[ip := wrap_int (c + 1)]> (Requests rl))
                             (MaxRequests rl) (WindowDuration rl))
              locked (<[i := mkWorker ip (AtUnlock true)]> ws))
  | AtUnlock b => Some (mkSystem rl false (<[i := mkWorker ip (Returned b)]> ws))
  | Returned _ => None
  end.
Proof.
  intros Hlt. unfold step_worker, set_pc. cbn [sys_workers sys_locked sys_rl].
  rewrite list_lookup_insert_eq by done.
  destruct p; cbn [w_ip w_pc]; rewrite ?list_insert_insert_eq; try done;
    repeat case_match; by rewrite ?list_insert_insert_eq.
Qed.

(** A worker that runs alone does what [AllowRequest] does. *)
Lemma solo_call rl (ws : list worker) i ip :
  ws !! i = Some (mkWorker ip AtLock) ->
  run [i; i; i; i; i] (mkSystem rl false ws)
  = mkSystem (snd (AllowRequest rl ip)) false
             (<[i := mkWorker ip (Returned (fst (AllowRequest rl ip)))]> ws).
Proof.
  intros Hi. pose proof (lookup_lt_Some _ _ _ Hi) as Hlt.
  rewrite <- (list_insert_id ws i _ Hi) at 1.
  unfold AllowRequest. cbn [run].
  rewrite step_worker_at by done. cbn [from_option id].
  rewrite step_worker_at by done. cbn [from_option id].
  rewrite step_worker_at by done.
  destruct (count_of rl ip >=? MaxRequests rl); cbn [from_option id].
  - rewrite step_worker_at by done. cbn [from_option id].
    rewrite step_worker_at by done. done.
  - rewrite step_worker_at by done. cbn [from_option id].
    rewrite step_worker_at by done. done.
Qed.

(** C5. [n] workers each call [AllowRequest(ip)] once on the same
    limiter, whose mutex serialises their critical sections, with [ip]
    absent at the start, a limit [0 <= limit < n] and no reset.  However
    their steps are interleaved, once all have returned exactly [limit]
    calls have returned [true] and [n - limit] have returned [false], and
    the count stored for [ip] is [limit].  The workers never deadlock, and
    from every instant they can all be brought to return. *)
Theorem concurrent_AllowRequest_exact
    (rl : RateLimiter) (ip : string) (n : nat) (sched : list nat) :
  well_typed rl -> Requests rl !! ip = None ->
  0 <= MaxRequests rl < Z.of_nat n ->
  let final := run sched (spawn rl ip n) in
  (all_done final = true ->
     tally (has_returned true) (sys_workers final) = MaxRequests rl
     /\ tally (has_returned false) (sys_workers final) = Z.of_nat n - MaxRequests rl
     /\ count_of (sys_rl final) ip = MaxRequests rl)
  /\ (all_done final = false -> exists i s', step_worker i final = Some s')
  /\ (exists sched', all_done (run (sched ++ sched') (spawn rl ip n)) = true).
Proof.
  intros (HM & _) Habs Hn final.
  assert (invariant ip (MaxRequests rl) n final) as Hinv.
  { apply run_invariant; [done |]. apply spawn_invariant; [done | lia]. }
  split_and!.
  - intros Hd. destruct Hinv as [_ Hsize _ _ _ Hcount Hrej Hle].
    destruct (all_done_tallies _ Hd) as (Hacc & Hrj & Hsum).
    rewrite Hsize in Hsum. rewrite Hacc in Hcount. rewrite Hrj in Hrej.
    pose proof (tally_nonneg (has_returned false) (sys_workers final)).
    destruct (decide (0 < tally (has_returned false) (sys_workers final)))
      as [Hpos | Hzero].
    + specialize (Hrej Hpos). lia.
    + lia.
  - intros Hnd. by eapply step_worker_progress.
  - destruct (run_to_completion _ _ _ _ HM Hinv) as (sched' & Hdone).
    exists sched'. by rewrite run_app.
Qed.

Lemma concurrent_AllowRequest_exact_witness :
  tally (has_returned true)
    (sys_workers
       (run [1; 0; 2; 1; 0; 1; 2; 1; 1; 0; 2; 0; 2; 0; 2; 0; 2; 0; 2; 2; 2; 2]%nat
            (spawn (mkRateLimiter ∅ 2 rateLimitWindow) "10.0.0.1" 3))) = 2
  /\ tally (has_returned false)
       (sys_workers
          (run [1; 0; 2; 1; 0; 1; 2; 1; 1; 0; 2; 0; 2; 0; 2; 0; 2; 0; 2; 2; 2; 2]%nat
               (spawn (mkRateLimiter ∅ 2 rateLimitWindow) "10.0.0.1" 3))) = 1
  /\ count_of
       (sys_rl
          (run [1; 0; 2; 1; 0; 1; 2; 1; 1; 0; 2; 0; 2; 0; 2; 0; 2; 0; 2; 2; 2; 2]%nat
               (spawn (mkRateLimiter ∅ 2 rateLimitWindow) "10.0.0.1" 3)))
       "10.0.0.1" = 2.
Proof.
  assert (well_typed (mkRateLimiter ∅ 2 rateLimitWindow)) as Hwt.
  { apply fresh_well_typed; apply is_int_literal; vm_compute; split; discriminate. }
  assert (0 <= MaxRequests (mkRateLimiter ∅ 2 rateLimitWindow) < Z.of_nat 3) as Hn.
  { vm_compute. split; [discriminate | reflexivity]. }
  destruct (concurrent_AllowRequest_exact
              (mkRateLimiter ∅ 2 rateLimitWindow) "10.0.0.1" 3
              [1; 0; 2; 1; 0; 1; 2; 1; 1; 0; 2; 0; 2; 0; 2; 0; 2; 0; 2; 2; 2; 2]%nat
              Hwt eq_refl Hn) as (Hdone & _ & _).
  apply Hdone. vm_compute. reflexivity.
Defined.

(** * Further properties *)

(** ** Accounting of accepted calls *)

Lemma AllowRequest_fst rl ip :
  fst (AllowRequest rl ip) = (count_of rl ip <? MaxRequests rl).
Proof.
  unfold AllowRequest.
  destruct (Z.geb_spec (count_of rl ip) (MaxRequests rl));
    destruct (Z.ltb_spec (count_of rl ip) (MaxRequests rl)); simpl; (done || lia).
Qed.

Lemma accepted_calls_nonneg ip ops rl : 0 <= accepted_calls ip ops rl.
Proof.
  revert rl. induction ops as [| o ops IH]; intros rl; simpl; [lia |].
  specialize (IH (snd (step o rl))). destruct (_ && _); lia.
Qed.

Lemma ticks_nonneg ops : 0 <= ticks ops.
Proof. induction ops as [| o ops IH]; simpl; [lia |]. destruct (is_tick o); lia. Qed.

Lemma exec_count_accepted ops rl ip :
  well_typed rl -> one_window ops = true ->
  count_of (exec ops rl) ip = count_of rl ip + accepted_calls ip ops rl.
Proof.
  revert rl. induction ops as [| o ops IH]; intros rl Hwt Hw; simpl; [lia |].
  apply one_window_cons in Hw as [Hnt Hw].
  rewrite (IH _ (step_well_typed o rl Hwt) Hw).
  rewrite (step_count o rl ip), AllowRequest_fst by done.
  destruct (is_allow_of ip o && _); lia.
Qed.

Lemma accepted_calls_app ip ops1 ops2 rl :
  accepted_calls ip (ops1 ++ ops2) rl
  = accepted_calls ip ops1 rl + accepted_calls ip ops2 (exec ops1 rl).
Proof.
  revert rl. induction ops1 as [| o ops1 IH]; intros rl; simpl; [lia |].
  rewrite IH. lia.
Qed.

(** X1. Within one window the count stored for an identifier goes up by
    exactly the number of its accepted calls: every accepted call adds one,
    and neither rejected calls, nor calls of other identifiers, nor reads
    change it.  So the count never goes down within a window. *)
Theorem count_is_accepted_calls (rl : RateLimiter) (ip : string) (ops : list op) :
  well_typed rl -> one_window ops = true ->
  count_of (exec ops rl) ip = count_of rl ip + accepted_calls ip ops rl
  /\ count_of rl ip <= count_of (exec ops rl) ip.
Proof.
  intros Hwt Hw. rewrite exec_count_accepted by done.
  split; [done |]. pose proof (accepted_calls_nonneg ip ops rl). lia.
Qed.

Lemma count_is_accepted_calls_witness :
  count_of (exec (replicate 7 (CallAllow "10.0.0.1")) mainLimiter) "10.0.0.1"
  = 0 + accepted_calls "10.0.0.1" (replicate 7 (CallAllow "10.0.0.1")) mainLimiter.
Proof.
  assert (well_typed mainLimiter) as Hwt.
  { apply fresh_well_typed; apply is_int_literal; vm_compute; split; discriminate. }
  apply (count_is_accepted_calls mainLimiter "10.0.0.1"
           (replicate 7 (CallAllow "10.0.0.1")) Hwt eq_refl).
Defined.

Lemma step_accounting o rl ip :
  well_typed rl -> counts_bounded rl ->
  let m := Z.max 0 (MaxRequests rl) in
  0 <= count_of rl ip <= m
  /\ (if is_allow_of ip o && fst (AllowRequest rl ip) then 1 else 0)
     + (m - count_of (snd (step o rl)) ip)
     <= (m - count_of rl ip) + m * (if is_tick o then 1 else 0).
Proof.
  intros Hwt Hb m.
  assert (0 <= count_of rl ip <= m) as Hc.
  { destruct (counts_bounded_count rl ip Hb) as [[_ ?] | ?]; lia. }
  split; [done |]. destruct o as [a | a |].
  - rewrite (step_count (CallAllow a) rl ip), AllowRequest_fst by done.
    cbn [is_tick]. destruct (is_allow_of ip (CallAllow a) && _); lia.
  - simpl. lia.
  - replace (count_of (snd (step Tick rl)) ip) with 0
      by (unfold count_of; simpl; by rewrite lookup_empty).
    simpl. lia.
Qed.

Lemma accepted_calls_bound ops rl ip :
  well_typed rl -> counts_bounded rl ->
  accepted_calls ip ops rl
  <= (Z.max 0 (MaxRequests rl) - count_of rl ip)
     + Z.max 0 (MaxRequests rl) * ticks ops.
Proof.
  revert rl. induction ops as [| o ops IH]; intros rl Hwt Hb.
  - destruct (step_accounting Tick rl ip Hwt Hb) as [Hc _]. simpl in *. lia.
  - destruct (step_accounting o rl ip Hwt Hb) as [Hc Hs].
    specialize (IH (snd (step o rl)) (step_well_typed o rl Hwt)).
    destruct Hwt as (HM & Hrest).
    specialize (IH (step_counts_bounded o rl HM Hb)).
    rewrite step_MaxRequests in IH.
    cbn [accepted_calls ticks].
    pose proof (ticks_nonneg ops).
    set (m := Z.max 0 (MaxRequests rl)) in *.
    destruct (is_tick o); nia.
Qed.

(** X2. The quota of the fixed window: in any history of a reachable
    limiter, resets included, an identifier gets at most
    [max(0, limit) - count] acceptances before the first reset and at most
    [max(0, limit)] more per reset; from a fresh limiter that is at most
    [max(0, limit) * (resets + 1)] acceptances. *)
Theorem quota_per_window (rl : RateLimiter) (ip : string) (ops : list op) :
  reachable rl ->
  accepted_calls ip ops rl
  <= (Z.max 0 (MaxRequests rl) - count_of rl ip)
     + Z.max 0 (MaxRequests rl) * ticks ops
  /\ (Requests rl !! ip = None ->
      accepted_calls ip ops rl <= Z.max 0 (MaxRequests rl) * (ticks ops + 1)).
Proof.
  intros Hr.
  pose proof (accepted_calls_bound ops rl ip (reachable_well_typed rl Hr)
                (reachable_counts_bounded rl Hr)) as H.
  split; [done |]. intros Habs.
  assert (count_of rl ip = 0) as Hc by (unfold count_of; by rewrite Habs). lia.
Qed.

Lemma quota_per_window_witness :
  accepted_calls "10.0.0.1"
    (replicate 8 (CallAllow "10.0.0.1") ++ Tick :: replicate 8 (CallAllow "10.0.0.1"))
    mainLimiter
  <= Z.max 0 5 * (1 + 1).
Proof.
  assert (reachable mainLimiter) as Hr.
  { apply (reach_new maxRequestsPerMinute rateLimitWindow);
      [apply is_int_literal; vm_compute; split; discriminate ..| reflexivity]. }
  destruct (quota_per_window mainLimiter "10.0.0.1"
              (replicate 8 (CallAllow "10.0.0.1")
                 ++ Tick :: replicate 8 (CallAllow "10.0.0.1")) Hr) as [_ H].
  apply H. reflexivity.
Defined.

(** ** Outcomes within a window *)

Lemma outcomes_lookup ops rl i o :
  ops !! i = Some o ->
  outcomes ops rl !! i = Some (fst (step o (exec (take i ops) rl))).
Proof.
  revert rl i. induction ops as [| o' ops IH]; intros rl [| i] Hi; try done.
  - by injection Hi as ->.
  - cbn [outcomes take exec]. simpl in Hi. by apply IH.
Qed.

Lemma one_window_take i ops : one_window ops = true -> one_window (take i ops) = true.
Proof.
  revert i. induction ops as [| o ops IH]; intros [| i] Hw; try done.
  apply one_window_cons in Hw as [Hnt Hw]. cbn [take]. unfold one_window; simpl.
  rewrite Hnt. simpl. by apply IH.
Qed.

(** X3. Which calls of a window are accepted: in a history without reset,
    a call [AllowRequest(ip)] returns [true] exactly when the count of [ip]
    at the start plus the number of its earlier calls in the history is
    below the limit.  So the accepted calls of an identifier are its first
    ones, and after its first rejection all its calls are rejected. *)
Theorem accepted_iff_below_limit
    (rl : RateLimiter) (ip : string) (ops : list op) (i : nat) :
  well_typed rl -> one_window ops = true ->
  ops !! i = Some (CallAllow ip) ->
  (outcomes ops rl !! i = Some (RetBool true)
   <-> count_of rl ip + allow_calls ip (take i ops) < MaxRequests rl)
  /\ (outcomes ops rl !! i = Some (RetBool false)
      <-> MaxRequests rl <= count_of rl ip + allow_calls ip (take i ops)).
Proof.
  intros Hwt Hw Hi.
  rewrite (outcomes_lookup _ _ _ _ Hi), step_allow_fst, AllowRequest_fst.
  rewrite exec_MaxRequests, exec_count by (done || by apply one_window_take).
  pose proof (allow_calls_nonneg ip (take i ops)) as Hn.
  set (c := count_of rl ip) in *. set (n := allow_calls ip (take i ops)) in *.
  destruct (Z.ltb_spec (Z.max c (Z.min (MaxRequests rl) (c + n))) (MaxRequests rl));
    split; split; intros H'; try done; try lia; by injection H'.
Qed.

Lemma accepted_iff_below_limit_witness :
  outcomes [CallAllow "a"; CallAllow "b"; CallAllow "a"; CallAllow "a"]
           (mkRateLimiter ∅ 2 rateLimitWindow) !! 3%nat
  = Some (RetBool false).
Proof.
  assert (well_typed (mkRateLimiter ∅ 2 rateLimitWindow)) as Hwt.
  { apply fresh_well_typed; apply is_int_literal; vm_compute; split; discriminate. }
  apply (accepted_iff_below_limit (mkRateLimiter ∅ 2 rateLimitWindow) "a"
           [CallAllow "a"; CallAllow "b"; CallAllow "a"; CallAllow "a"] 3 Hwt
           eq_refl eq_refl).
  vm_compute. discriminate.
Defined.

(** ** Admission and the remaining count *)

(** X4. In every reachable state [AllowRequest(ip)] returns [true]
    exactly when [GetRemainingRequests(ip)] is positive; an accepted call
    lowers the remaining count of [ip] by exactly one, and a rejected call
    finds it at 0 and leaves it there. *)
Theorem allowed_iff_remaining (rl : RateLimiter) (ip : string) :
  reachable rl ->
  (fst (AllowRequest rl ip) = true <-> 0 < GetRemainingRequests rl ip)
  /\ (fst (AllowRequest rl ip) = true ->
      GetRemainingRequests (snd (AllowRequest rl ip)) ip
      = GetRemainingRequests rl ip - 1)
  /\ (fst (AllowRequest rl ip) = false ->
      GetRemainingRequests rl ip = 0
      /\ GetRemainingRequests (snd (AllowRequest rl ip)) ip = 0).
Proof.
  intros Hr. pose proof (reachable_well_typed rl Hr) as Hwt.
  assert (reachable (snd (AllowRequest rl ip))) as Hr'.
  { rewrite <- step_allow_snd. by constructor. }
  rewrite (reachable_remaining _ _ Hr'), (reachable_remaining _ _ Hr).
  rewrite AllowRequest_MaxRequests, AllowRequest_fst.
  destruct (Z.ltb_spec (count_of rl ip) (MaxRequests rl)) as [Hlt | Hge].
  - rewrite AllowRequest_accept by done. cbn [snd].
    rewrite count_of_insert_eq. split_and!; try done; lia.
  - rewrite AllowRequest_reject by done. cbn [snd]. split_and!; try done; lia.
Qed.

Lemma allowed_iff_remaining_witness :
  GetRemainingRequests (snd (AllowRequest mainLimiter "10.0.0.1")) "10.0.0.1"
  = GetRemainingRequests mainLimiter "10.0.0.1" - 1.
Proof.
  assert (reachable mainLimiter) as Hr.
  { apply (reach_new maxRequestsPerMinute rateLimitWindow);
      [apply is_int_literal; vm_compute; split; discriminate ..| reflexivity]. }
  destruct (allowed_iff_remaining mainLimiter "10.0.0.1" Hr) as (_ & H & _).
  apply H. reflexivity.
Defined.

(** ** The reset and the window boundary *)

Lemma exec_WindowDuration ops rl : WindowDuration (exec ops rl) = WindowDuration rl.
Proof.
  revert rl. induction ops as [| o ops IH]; intros rl; simpl; [done |].
  by rewrite IH, step_WindowDuration.
Qed.

(** X5. A reset forgets everything: whatever history came before, the
    state after a reset depends on the limit and the window only; for a
    limiter built by [NewRateLimiter] it is the state the constructor
    returned. *)
Theorem reset_forgets_history :
  (forall rl ops, exec (ops ++ [Tick]) rl = resetTick rl)
  /\ (forall m w rl0 ops,
        NewRateLimiter m w = Ok rl0 -> exec (ops ++ [Tick]) rl0 = rl0).
Proof.
  assert (forall rl ops, exec (ops ++ [Tick]) rl = resetTick rl) as H.
  { intros rl ops. rewrite exec_app. cbn [exec step snd]. unfold resetTick.
    by rewrite exec_MaxRequests, exec_WindowDuration. }
  split; [done |].
  intros m w rl0 ops Hnew. rewrite H.
  by apply NewRateLimiter_inv in Hnew as [_ ->].
Qed.

Lemma reset_forgets_history_witness :
  exec ([CallAllow "a"; CallAllow "b"; CallAllow "a"] ++ [Tick]) mainLimiter
  = mainLimiter.
Proof.
  destruct reset_forgets_history as [_ H].
  apply (H maxRequestsPerMinute rateLimitWindow). reflexivity.
Defined.

Lemma outcomes_app ops1 ops2 rl :
  outcomes (ops1 ++ ops2) rl = outcomes ops1 rl ++ outcomes ops2 (exec ops1 rl).
Proof.
  revert rl. induction ops1 as [| o ops1 IH]; intros rl; simpl; [done |].
  by rewrite IH.
Qed.

Lemma outcomes_in_a_row (k : nat) rl ip :
  well_typed rl -> count_of rl ip + Z.of_nat k <= MaxRequests rl ->
  outcomes (replicate k (CallAllow ip)) rl = replicate k (RetBool true).
Proof.
  intros Hwt Hk. apply list_eq. intros i.
  destruct (decide (i < k)%nat) as [Hlt | Hge].
  - rewrite (outcomes_accepted _ rl ip); try done.
    + symmetry. by apply lookup_replicate_2.
    + apply one_window_replicate.
    + rewrite allow_calls_replicate. lia.
    + by apply lookup_replicate_2.
  - rewrite !lookup_ge_None_2; [done | |].
    + rewrite length_replicate. lia.
    + rewrite length_outcomes, length_replicate. lia.
Qed.

(** X6. The burst at a window boundary: an identifier that has used up
    its limit just before a reset is granted the full limit again right
    after it, so [2 * limit] calls in a row around one reset are all
    accepted. *)
Theorem boundary_burst (rl : RateLimiter) (ip : string) (k : nat) :
  well_typed rl -> Requests rl !! ip = None -> Z.of_nat k = MaxRequests rl ->
  outcomes (replicate k (CallAllow ip) ++ Tick :: replicate k (CallAllow ip)) rl
  = replicate k (RetBool true) ++ RetNone :: replicate k (RetBool true)
  /\ accepted_calls ip
       (replicate k (CallAllow ip) ++ Tick :: replicate k (CallAllow ip)) rl
     = 2 * MaxRequests rl.
Proof.
  intros Hwt Habs Hk.
  assert (count_of rl ip = 0) as Hc by (unfold count_of; by rewrite Habs).
  set (rl1 := exec (replicate k (CallAllow ip)) rl).
  assert (well_typed (resetTick rl1)) as Hwt1.
  { apply (step_well_typed Tick). by apply exec_well_typed. }
  assert (count_of (resetTick rl1) ip = 0) as Hc1.
  { unfold count_of; simpl. by rewrite lookup_empty. }
  assert (MaxRequests (resetTick rl1) = MaxRequests rl) as HM1.
  { simpl. apply exec_MaxRequests. }
  split.
  - rewrite outcomes_app. cbn [outcomes step fst snd].
    rewrite outcomes_in_a_row by (done || lia).
    fold rl1. rewrite outcomes_in_a_row by (done || lia). done.
  - rewrite accepted_calls_app. cbn [accepted_calls is_allow_of is_tick andb step snd].
    fold rl1.
    pose proof (exec_count_accepted (replicate k (CallAllow ip)) rl ip Hwt
                  (one_window_replicate k ip)) as H1.
    pose proof (exec_count_accepted (replicate k (CallAllow ip)) (resetTick rl1) ip
                  Hwt1 (one_window_replicate k ip)) as H2.
    rewrite exec_count in H1, H2 by (done || apply one_window_replicate).
    rewrite allow_calls_replicate in H1, H2. lia.
Qed.

Lemma boundary_burst_witness :
  outcomes (replicate 5 (CallAllow "10.0.0.1")
              ++ Tick :: replicate 5 (CallAllow "10.0.0.1")) mainLimiter
  = replicate 5 (RetBool true) ++ RetNone :: replicate 5 (RetBool true).
Proof.
  assert (well_typed mainLimiter) as Hwt.
  { apply fresh_well_typed; apply is_int_literal; vm_compute; split; discriminate. }
  destruct (boundary_burst mainLimiter "10.0.0.1" 5 Hwt eq_refl eq_refl) as [H _].
  exact H.
Defined.

(** ** Keys of the table *)

Lemma exec_counts_bounded ops rl :
  well_typed rl -> counts_bounded rl -> counts_bounded (exec ops rl).
Proof.
  revert rl. induction ops as [| o ops IH]; intros rl Hwt Hb; simpl; [done |].
  apply IH; [by apply step_well_typed |].
  destruct Hwt as (HM & _). by apply step_counts_bounded.
Qed.

(** X7. Keys appear lazily and only through accepted calls: in a window
    that starts with the empty table, an identifier is a key of the table
    exactly when the limit is positive and the identifier has called
    [AllowRequest] in this window; [GetRemainingRequests] never adds a
    key, and with a limit that is not positive the table stays empty. *)
Theorem key_present_iff_called (rl : RateLimiter) (ip : string) (ops : list op) :
  well_typed rl -> Requests rl = ∅ -> one_window ops = true ->
  (is_Some (Requests (exec ops rl) !! ip)
   <-> 0 < MaxRequests rl /\ 0 < allow_calls ip ops)
  /\ (MaxRequests rl <= 0 -> Requests (exec ops rl) = ∅).
Proof.
  intros Hwt Hempty Hw.
  assert (counts_bounded rl) as Hb.
  { unfold counts_bounded. rewrite Hempty. apply map_Forall_empty. }
  pose proof (exec_counts_bounded ops rl Hwt Hb) as Hb'.
  assert (forall a, is_Some (Requests (exec ops rl) !! a)
                    <-> 0 < MaxRequests rl /\ 0 < allow_calls a ops) as Hkey.
  { intros a.
    assert (count_of rl a = 0) as Hc.
    { unfold count_of. by rewrite Hempty, lookup_empty. }
    pose proof (exec_count ops rl a Hwt Hw) as Hcount. rewrite Hc in Hcount.
    pose proof (allow_calls_nonneg a ops).
    destruct (counts_bounded_count _ a Hb') as [[Hnone H0] | Hpos].
    - rewrite Hnone. split; [by intros [? ?] | lia].
    - rewrite exec_MaxRequests in Hpos. split; [lia |]. intros _.
      unfold count_of in Hpos.
      destruct (Requests (exec ops rl) !! a); [by eexists | simpl in Hpos; lia]. }
  split; [apply Hkey |].
  intros HM. apply map_eq. intros a. rewrite lookup_empty.
  destruct (Requests (exec ops rl) !! a) as [v |] eqn:E; [| done].
  assert (is_Some (Requests (exec ops rl) !! a)) as Hs by (by rewrite E).
  apply Hkey in Hs. lia.
Qed.

Lemma key_present_iff_called_witness :
  is_Some (Requests (exec [CallRemaining "b"; CallAllow "a"] mainLimiter) !! "a")
  /\ ~ is_Some (Requests (exec [CallRemaining "b"; CallAllow "a"] mainLimiter) !! "b").
Proof.
  assert (well_typed mainLimiter) as Hwt.
  { apply fresh_well_typed; apply is_int_literal; vm_compute; split; discriminate. }
  split.
  - apply (key_present_iff_called mainLimiter "a" [CallRemaining "b"; CallAllow "a"]
             Hwt eq_refl eq_refl).
    split; reflexivity.
  - intros H.
    apply (key_present_iff_called mainLimiter "b" [CallRemaining "b"; CallAllow "a"]
             Hwt eq_refl eq_refl) in H.
    destruct H as [_ H]. vm_compute in H. discriminate.
Defined.

(** ** The gate over a sequence of requests *)

Lemma RateLimitMiddleware_step limiter r :
  RateLimitMiddleware limiter r
  = (gate_actions r (fst (step (gate_op r) limiter)), snd (step (gate_op r) limiter)).
Proof.
  unfold gate_op. rewrite step_allow_fst, step_allow_snd.
  unfold RateLimitMiddleware. by destruct (AllowRequest _ _) as [[] ?].
Qed.

(** X8. Over a sequence of requests the gate decides as the limiter does
    on the history of the resolved identifiers: each request is passed on
    or answered with 429 according to the outcome of its [AllowRequest]
    call in that history, and the limiter ends in the state of that
    history.  Nothing of a request but its resolved identifier enters the
    decision. *)
Theorem gate_all_is_history (rs : list Request) (limiter : RateLimiter) :
  gate_all rs limiter
  = (zip_with gate_actions rs (outcomes (map gate_op rs) limiter),
     exec (map gate_op rs) limiter)
  /\ (forall rs',
        map getClientIP rs' = map getClientIP rs ->
        map passed_on (fst (gate_all rs' limiter))
        = map passed_on (fst (gate_all rs limiter))
        /\ snd (gate_all rs' limiter) = snd (gate_all rs limiter)).
Proof.
  assert (forall rs limiter,
            gate_all rs limiter
            = (zip_with gate_actions rs (outcomes (map gate_op rs) limiter),
               exec (map gate_op rs) limiter)) as Hhist.
  { clear. induction rs as [| r rs IH]; intros limiter; [done |].
    cbn [gate_all map outcomes exec zip_with].
    rewrite RateLimitMiddleware_step, IH. done. }
  split; [apply Hhist |].
  intros rs' Hids. rewrite !Hhist. cbn [fst snd].
  assert (map gate_op rs' = map gate_op rs) as Hops.
  { unfold gate_op. rewrite <- !(map_map getClientIP CallAllow). by rewrite Hids. }
  rewrite Hops. split; [| done].
  assert (length rs' = length rs) as Hlen.
  { rewrite <- (length_map getClientIP rs'), Hids. apply length_map. }
  generalize (outcomes (map gate_op rs) limiter) as os. clear Hops Hids Hhist.
  revert rs' Hlen. induction rs as [| r rs IH]; intros [| r' rs'] Hlen os; try done.
  destruct os as [| o os]; [done |]. cbn [zip_with map]. f_equal.
  - by destruct o as [[] | |].
  - apply IH. simpl in Hlen. lia.
Qed.

Lemma gate_all_is_history_witness :
  map passed_on
    (fst (gate_all [mkRequest "GET" ∅ "10.0.0.1:1"; mkRequest "POST" ∅ "10.0.0.1:2";
                    mkRequest "GET" ∅ "10.0.0.1:3"]
                   (mkRateLimiter ∅ 2 rateLimitWindow)))
  = map passed_on
      (fst (gate_all (replicate 3 (mkRequest "GET" ∅ "10.0.0.1:9"))
                     (mkRateLimiter ∅ 2 rateLimitWindow))).
Proof.
  destruct (gate_all_is_history (replicate 3 (mkRequest "GET" ∅ "10.0.0.1:9"))
              (mkRateLimiter ∅ 2 rateLimitWindow)) as [_ H].
  apply H. reflexivity.
Defined.

(** X9. Requests that resolve to pairwise distinct identifiers, none of
    them in the table yet, are all passed on when the limit is positive,
    however many they are: the limit binds per resolved identifier only.
    Since [getClientIP] prefers the [X-Forwarded-For] header, one
    connection that varies this header is never limited. *)
Theorem distinct_identifiers_all_passed (rs : list Request) (rl : RateLimiter) :
  well_typed rl -> 0 < MaxRequests rl ->
  NoDup (map getClientIP rs) ->
  (forall r, r ∈ rs -> Requests rl !! getClientIP r = None) ->
  fst (gate_all rs rl) = map (fun r => [Next r]) rs.
Proof.
  revert rl. induction rs as [| r rs IH]; intros rl Hwt HM Hnd Habs; [done |].
  cbn [gate_all map]. rewrite RateLimitMiddleware_step.
  unfold gate_op at 1 2. rewrite step_allow_fst, step_allow_snd.
  assert (count_of rl (getClientIP r) = 0) as Hc.
  { unfold count_of. rewrite Habs; [done | left]. }
  assert (fst (AllowRequest rl (getClientIP r)) = true) as ->.
  { rewrite AllowRequest_fst, Hc. by apply Z.ltb_lt. }
  apply NoDup_cons in Hnd as [Hnotin Hnd].
  specialize (IH (snd (AllowRequest rl (getClientIP r)))).
  destruct (gate_all rs _) as [rest rl''] eqn:E. cbn [fst gate_actions] in *. f_equal.
  apply IH; try done.
  - by apply AllowRequest_well_typed.
  - by rewrite AllowRequest_MaxRequests.
  - intros r' Hr'. rewrite AllowRequest_other.
    + apply Habs. by right.
    + intros Heq. apply Hnotin. rewrite Heq. apply list_elem_of_fmap. by exists r'.
Qed.


Lemma distinct_identifiers_all_passed_witness :
  map passed_on
    (fst (gate_all
            [mkRequest "GET" (Header_Set ∅ "X-Forwarded-For" "1.1.1.1") "10.0.0.1:5";
             mkRequest "GET" (Header_Set ∅ "X-Forwarded-For" "1.1.1.2") "10.0.0.1:5";
             mkRequest "GET" (Header_Set ∅ "X-Forwarded-For" "1.1.1.3") "10.0.0.1:5"]
            (mkRateLimiter ∅ 1 rateLimitWindow)))
  = [true; true; true].
Proof.
  assert (well_typed (mkRateLimiter ∅ 1 rateLimitWindow)) as Hwt.
  { apply fresh_well_typed; apply is_int_literal; vm_compute; split; discriminate. }
  rewrite (distinct_identifiers_all_passed _ (mkRateLimiter ∅ 1 rateLimitWindow) Hwt).
  - reflexivity.
  - reflexivity.
  - vm_compute. repeat (constructor; [by rewrite ?elem_of_cons, elem_of_nil; intros H; repeat destruct H as [H | H]; try discriminate |]).
    constructor.
  - intros r _. reflexivity.
Defined.

(** ** The protected handler and the server *)



Lemma DefaultServeMux_lookup pattern :
  DefaultServeMux !! pattern
  = if bool_decide (pattern = "/api/data")
    then Some (rateLimitMiddleware handleDataRequest) else None.
Proof.
  unfold DefaultServeMux. case_bool_decide as E.
  - subst. apply lookup_singleton_eq.
  - by apply lookup_singleton_ne.
Qed.

Lemma rateLimitMiddleware_handleDataRequest r err rl :
  rateLimitMiddleware handleDataRequest r err rl
  = (if fst (AllowRequest rl (getClientIP r))
     then handleDataRequest r err else tooManyRequests,
     snd (AllowRequest rl (getClientIP r))).
Proof.
  unfold rateLimitMiddleware.
  destruct (fst (AllowRequest rl (getClientIP r))) eqn:E.
  - rewrite RateLimitMiddleware_allowed by done.
    cbn [flat_map]. by rewrite app_nil_r.
  - rewrite RateLimitMiddleware_rejected by done.
    rewrite AllowRequest_reject; [done |].
    rewrite AllowRequest_fst in E. by apply Z.ltb_ge.
Qed.

Lemma routed_cons_in i rs :
  Pattern i = "/api/data" -> routed (i :: rs) = i :: routed rs.
Proof. intros H. unfold routed. by rewrite filter_cons_True. Qed.

Lemma routed_cons_out i rs :
  Pattern i <> "/api/data" -> routed (i :: rs) = routed rs.
Proof. intros H. unfold routed. by rewrite filter_cons_False. Qed.

(** X11. The server on the requests of one client within a window.  A
    request that does not match the pattern [/api/data] runs no code of
    the program and uses up no quota.  Of those that match, the first
    [limit - count] are handed to [handleDataRequest] and all later ones
    are answered with 429 by the gate.  So a request that the handler
    refuses with 405, and one whose document could not be sent, use up
    the client's quota like any other; the limiter ends in the state of
    as many [AllowRequest] calls as requests matched. *)
Theorem serve_statuses (rs : list Incoming) (rl : RateLimiter) (ip : string) :
  well_typed rl ->
  Forall (fun i => getClientIP (Req i) = ip) rs ->
  (forall n i, rs !! n = Some i ->
     fst (serve rs rl) !! n
     = Some (if bool_decide (Pattern i = "/api/data") then
               Some (if Z.of_nat (length (routed (take n rs)))
                        <? MaxRequests rl - count_of rl ip
                     then handleDataRequest (Req i) (EncodeErr i)
                     else tooManyRequests)
             else None))
  /\ snd (serve rs rl)
     = exec (replicate (length (routed rs)) (CallAllow ip)) rl.
Proof.
  intros Hwt Hip. revert rl Hwt.
  induction Hip as [| i rs Hi Hrs IH]; intros rl Hwt.
  { split; [by intros n i Hn | done]. }
  cbn [serve]. rewrite DefaultServeMux_lookup.
  case_bool_decide as Hp.
  - rewrite rateLimitMiddleware_handleDataRequest, Hi.
    destruct (IH (snd (AllowRequest rl ip)) (AllowRequest_well_typed rl ip Hwt))
      as [IHl IHs].
    destruct (serve rs (snd (AllowRequest rl ip))) as [rest rl'] eqn:E.
    cbn [fst snd] in *. split.
    + intros [| n] j Hj.
      * injection Hj as <-. rewrite bool_decide_eq_true_2 by done.
        cbn [take length lookup list_lookup]. unfold routed.
        rewrite filter_nil. cbn [length]. rewrite AllowRequest_fst.
        do 2 f_equal.
        destruct (Z.ltb_spec (count_of rl ip) (MaxRequests rl));
          destruct (Z.ltb_spec (Z.of_nat 0) (MaxRequests rl - count_of rl ip));
          (done || lia).
      * cbn [lookup list_lookup] in Hj |- *. change (rest !! n = Some
          (if bool_decide (Pattern j = "/api/data")
           then Some (if Z.of_nat (length (routed (take (S n) (i :: rs))))
                         <? MaxRequests rl - count_of rl ip
                      then handleDataRequest (Req j) (EncodeErr j)
                      else tooManyRequests)
           else None)).
        rewrite (IHl n j Hj). cbn [take]. rewrite routed_cons_in by done.
        cbn [length]. rewrite AllowRequest_MaxRequests.
        do 2 f_equal. destruct (bool_decide _); [| done]. f_equal.
        destruct (Z.ltb_spec (count_of rl ip) (MaxRequests rl)) as [Hlt | Hge].
        -- rewrite AllowRequest_accept by done. cbn [snd].
           rewrite count_of_insert_eq.
           destruct (Z.ltb_spec (Z.of_nat (length (routed (take n rs))))
                       (MaxRequests rl - (count_of rl ip + 1)));
             destruct (Z.ltb_spec (Z.of_nat (S (length (routed (take n rs)))))
                         (MaxRequests rl - count_of rl ip));
             (done || lia).
        -- rewrite AllowRequest_reject by done. cbn [snd].
           destruct (Z.ltb_spec (Z.of_nat (length (routed (take n rs))))
                       (MaxRequests rl - count_of rl ip));
             destruct (Z.ltb_spec (Z.of_nat (S (length (routed (take n rs)))))
                         (MaxRequests rl - count_of rl ip));
             (done || lia).
    + rewrite routed_cons_in by done. cbn [length replicate exec].
      by rewrite step_allow_snd.
  - destruct (IH rl Hwt) as [IHl IHs].
    destruct (serve rs rl) as [rest rl'] eqn:E.
    cbn [fst snd] in *. split.
    + intros [| n] j Hj.
      * injection Hj as <-. by rewrite bool_decide_eq_false_2 by done.
      * cbn [lookup list_lookup] in Hj |- *. change (rest !! n = Some
          (if bool_decide (Pattern j = "/api/data")
           then Some (if Z.of_nat (length (routed (take (S n) (i :: rs))))
                         <? MaxRequests rl - count_of rl ip
                      then handleDataRequest (Req j) (EncodeErr j)
                      else tooManyRequests)
           else None)).
        rewrite (IHl n j Hj). cbn [take]. by rewrite routed_cons_out by done.
    + by rewrite routed_cons_out by done.
Qed.

Lemma serve_statuses_witness :
  let get := mkRequest "GET" ∅ "10.0.0.1:54321" in
  let post := mkRequest "POST" ∅ "10.0.0.1:54399" in
  let rs := [ mkIncoming "/api/data" get None;
              mkIncoming "/api/data" post None;
              mkIncoming EmptyString get None;
              mkIncoming "/api/data" get (Some "broken pipe");
              mkIncoming "/api/data" get None;
              mkIncoming "/api/data" get None;
              mkIncoming "/api/data" get None ] in
  fst (serve rs mainLimiter) !! 1%nat = Some (Some (handleDataRequest post None))
  /\ fst (serve rs mainLimiter) !! 2%nat = Some None
  /\ fst (serve rs mainLimiter) !! 5%nat = Some (Some (handleDataRequest get None))
  /\ fst (serve rs mainLimiter) !! 6%nat = Some (Some tooManyRequests)
  /\ count_of (snd (serve rs mainLimiter)) "10.0.0.1" = 5.
Proof.
  intros get post rs.
  destruct (serve_statuses rs mainLimiter "10.0.0.1") as [Hl Hs].
  - exact mainLimiter_well_typed.
  - repeat (apply Forall_cons; split; [reflexivity |]). apply Forall_nil_2.
  - split_and!.
    + rewrite (Hl 1%nat (mkIncoming "/api/data" post None) eq_refl). reflexivity.
    + rewrite (Hl 2%nat (mkIncoming EmptyString get None) eq_refl). reflexivity.
    + rewrite (Hl 5%nat (mkIncoming "/api/data" get None) eq_refl). reflexivity.
    + rewrite (Hl 6%nat (mkIncoming "/api/data" get None) eq_refl). reflexivity.
    + rewrite Hs. reflexivity.
Defined.

(** ** Edge cases of the client address resolver *)

(** X12. A blank first entry: when the [X-Forwarded-For] header is not
    empty but its first comma-separated entry is empty or white space
    only (the header starts with a comma, say), [getClientIP] returns the
    empty string; it does not fall back to [X-Real-IP] or to
    [RemoteAddr]. *)
Theorem blank_forwarded_entry (r : Request) (e : string) :
  Header_Get (Header r) "X-Forwarded-For" <> EmptyString ->
  first_entry_of (Header_Get (Header r) "X-Forwarded-For") e ->
  white e ->
  getClientIP r = EmptyString.
Proof.
  intros Hf He Hw. pose proof (getClientIP_resolves r) as H.
  unfold resolves_to in H.
  destruct (decide (Header_Get (Header r) "X-Forwarded-For" <> EmptyString)); [| done].
  destruct H as (e' & He' & Ht). apply trimmed_of_TrimSpace in Ht.
  rewrite Ht, (first_entry_of_unique _ _ _ He' He). by apply TrimSpace_white.
Qed.

Lemma blank_forwarded_entry_witness :
  getClientIP (mkRequest "GET"
                 (Header_Set (Header_Set ∅ "X-Real-IP" "9.8.7.6")
                             "X-Forwarded-For" "  , 5.6.7.8")
                 "10.0.0.1:54321") = EmptyString.
Proof.
  apply (blank_forwarded_entry _ "  ").
  - vm_compute. discriminate.
  - split; [reflexivity |]. right. by exists " 5.6.7.8".
  - apply (made_of_cons space_encodings " " " ").
    + vm_compute. apply list_elem_of_In. do 5 right. by left.
    + apply (made_of_one space_encodings " ").
      vm_compute. apply list_elem_of_In. do 5 right. by left.
Defined.



(** ** Goroutines under the mutex *)

Import Goroutines.

Lemma lookup_insert_cases {A} (l : list A) i x y j z :
  l !! i = Some x -> <[i := y]> l !! j = Some z ->
  (j = i /\ z = y) \/ (j <> i /\ l !! j = Some z).
Proof.
  intros Hi Hj. destruct (decide (j = i)) as [-> | Hne].
  - rewrite list_lookup_insert_eq in Hj by (by eapply lookup_lt_Some).
    left. by injection Hj as <-.
  - rewrite list_lookup_insert_ne in Hj by done. by right.
Qed.

Lemma gtally_insert P (pool : list goroutine) i g g' :
  pool !! i = Some g ->
  gtally P (<[i := g']> pool)
  = gtally P pool - (if P g then 1 else 0) + (if P g' then 1 else 0).
Proof.
  revert i. induction pool as [| g0 pool IH]; intros [| i] Hi; try done; simpl in *.
  - injection Hi as ->. lia.
  - rewrite (IH i Hi). lia.
Qed.

Lemma holder_locked locked pool i g :
  mutex_ok locked pool -> pool !! i = Some g -> gcritical g = true -> locked = true.
Proof.
  intros Hm Hi Hc. destruct locked; [done |].
  by rewrite (Hm i g Hi) in Hc.
Qed.

Lemma others_outside locked pool i g :
  mutex_ok locked pool -> pool !! i = Some g ->
  gcritical g = true \/ locked = false ->
  forall j g', j <> i -> pool !! j = Some g' -> gcritical g' = false.
Proof.
  intros Hm Hi Hor j g' Hne Hj. destruct locked.
  - destruct Hor as [Hc | ?]; [| done].
    destruct Hm as (h & gh & Hh & _ & Hothers).
    destruct (decide (i = h)) as [-> | Hih]; [by eapply Hothers |].
    by rewrite (Hothers i g Hih Hi) in Hc.
  - by eapply Hm.
Qed.

(** The mutex stays well accounted for when one goroutine moves. *)
Lemma mutex_update locked pool i g g' :
  mutex_ok locked pool -> pool !! i = Some g ->
  (gcritical g' = true -> gcritical g = true \/ locked = false) ->
  mutex_ok (if gcritical g' then true else if gcritical g then false else locked)
           (<[i := g']> pool).
Proof.
  intros Hm Hi Hok. destruct (gcritical g') eqn:Hc'.
  - exists i, g'. split_and!; [by eapply list_lookup_insert_eq, lookup_lt_Some | done |].
    intros j gj Hne Hj. rewrite list_lookup_insert_ne in Hj by done.
    exact (others_outside locked pool i g Hm Hi (Hok eq_refl) j gj Hne Hj).
  - destruct (gcritical g) eqn:Hc.
    + intros j gj Hj.
      apply (lookup_insert_cases _ _ _ _ _ _ Hi) in Hj as [[_ ->] | [Hne Hj]]; [done |].
      exact (others_outside locked pool i g Hm Hi (or_introl Hc) j gj Hne Hj).
    + destruct locked.
      * destruct Hm as (h & gh & Hh & Hch & Hothers).
        assert (h <> i) as Hhi by (intros ->; congruence).
        exists h, gh. split_and!; [by rewrite list_lookup_insert_ne | done |].
        intros j gj Hne Hj.
        apply (lookup_insert_cases _ _ _ _ _ _ Hi) in Hj as [[_ ->] | [_ Hj]]; [done |].
        by eapply Hothers.
      * intros j gj Hj.
        apply (lookup_insert_cases _ _ _ _ _ _ Hi) in Hj as [[_ ->] | [_ Hj]]; [done |].
        by eapply Hm.
Qed.

Lemma mid_ok_outside base rl g : gcritical g = false -> mid_ok base rl g.
Proof. unfold gcritical, mid_ok. by destruct (g_pc g). Qed.

Lemma exec_snoc ops o rl : exec (ops ++ [o]) rl = snd (step o (exec ops rl)).
Proof. by rewrite exec_app. Qed.

Lemma outcomes_snoc ops o rl :
  outcomes (ops ++ [o]) rl !! length ops = Some (fst (step o (exec ops rl))).
Proof.
  rewrite outcomes_app, lookup_app_r by (by rewrite length_outcomes).
  by rewrite length_outcomes, Nat.sub_diag.
Qed.

Lemma ret_ok_extend rl0 log done_ops i g :
  ret_ok rl0 log i g -> ret_ok rl0 (log ++ done_ops) i g.
Proof.
  unfold ret_ok. destruct (g_pc g); try done.
  all: intros (k & Hk & Ho); exists k; split;
    [ by apply lookup_app_l_Some
    | rewrite map_app, outcomes_app; by apply lookup_app_l_Some ].
Qed.

Lemma accepted_calls_snoc ip ops o rl :
  accepted_calls ip (ops ++ [o]) rl
  = accepted_calls ip ops rl
    + (if is_allow_of ip o && fst (AllowRequest (exec ops rl) ip) then 1 else 0).
Proof. rewrite accepted_calls_app. simpl. lia. Qed.

(** The invariant is kept when goroutine [i] moves from [g] to [g'],
    leaving the limiter as [rl'] and completing [done_ops]. *)
Lemma ginv_update rl0 s log i g g' rl' done_ops :
  ginv rl0 s log -> gs_pool s !! i = Some g ->
  let locked' :=
    if gcritical g' then true else if gcritical g then false else gs_locked s in
  let base' := exec (map snd (log ++ done_ops)) rl0 in
  (gcritical g' = true -> gcritical g = true \/ gs_locked s = false) ->
  mid_ok base' rl' g' ->
  (locked' = false -> rl' = base') ->
  ret_ok rl0 (log ++ done_ops) i g' ->
  (forall ip, accepted_calls ip (map snd (log ++ done_ops)) rl0
              = accepted_calls ip (map snd log) rl0
                - (if admitted ip g then 1 else 0) + (if admitted ip g' then 1 else 0)) ->
  ((gcritical g = true \/ gs_locked s = false)
   \/ (rl' = gs_rl s /\ done_ops = [])) ->
  ginv rl0 (mkGS rl' locked' (<[i := g']> (gs_pool s))) (log ++ done_ops).
Proof.
  intros [Hmutex Hmid Hidle Hret Hadm] Hi locked' base' C1 C2 C3 C4 C5 C6.
  constructor; cbn [gs_locked gs_rl gs_pool].
  - by apply mutex_update.
  - intros j gj Hj.
    apply (lookup_insert_cases _ _ _ _ _ _ Hi) in Hj as [[_ ->] | [Hne Hj]]; [done |].
    destruct C6 as [Hout | [-> ->]].
    + apply mid_ok_outside.
      exact (others_outside _ _ i g Hmutex Hi Hout j gj Hne Hj).
    + rewrite app_nil_r. by eapply Hmid.
  - done.
  - intros j gj Hj.
    apply (lookup_insert_cases _ _ _ _ _ _ Hi) in Hj as [[-> ->] | [Hne Hj]]; [done |].
    apply ret_ok_extend. by eapply Hret.
  - intros ip. rewrite (gtally_insert _ _ _ _ _ Hi), Hadm, C5. lia.
Qed.

Lemma AllowRequest_pair b rl base ip :
  (b, rl) = AllowRequest base ip ->
  b = fst (AllowRequest base ip) /\ rl = snd (AllowRequest base ip).
Proof. by intros <-. Qed.

(** Every step of every goroutine keeps the invariant. *)
Lemma gstep_ginv rl0 s log i s' done_ops :
  ginv rl0 s log -> gstep i s = Some (s', done_ops) ->
  ginv rl0 s' (log ++ done_ops).
Proof.
  intros Hinv Hstep. unfold gstep in Hstep.
  destruct (gs_pool s !! i) as [[ip p] |] eqn:Hi; [| done].
  pose proof (ginv_mid _ _ _ Hinv _ _ Hi) as Hm. unfold mid_ok in Hm. cbn in Hm.
  pose proof (ginv_idle _ _ _ Hinv) as Hidle.
  pose proof (holder_locked _ _ i _ (ginv_mutex _ _ _ Hinv) Hi) as Hheld.
  unfold at_pc in Hstep.
  destruct p as [| | c | c | b | b | | | c | rem | z | z | | | |];
    cbn [gcritical g_pc] in Hheld; try rewrite (Hheld eq_refl) in Hstep.
  - (* AllowLock *)
    destruct (gs_locked s) eqn:Hl; [done |]. injection Hstep as <- <-.
    apply (ginv_update rl0 s log i _ (mkG ip AllowRead) (gs_rl s) [] Hinv Hi);
      cbn; rewrite ?app_nil_r; try done; auto.
    intros ip0. lia.
  - (* AllowRead *)
    injection Hstep as <- <-.
    apply (ginv_update rl0 s log i _ (mkG ip (AllowCompare _)) (gs_rl s) [] Hinv Hi);
      cbn; rewrite ?app_nil_r; try done; auto.
    + by rewrite Hm.
    + intros ip0. lia.
  - (* AllowCompare *)
    destruct Hm as [Hrl ->].
    destruct (_ >=? _) eqn:Hcmp; injection Hstep as <- <-.
    + apply (ginv_update rl0 s log i _ (mkG ip (AllowUnlock false)) (gs_rl s) [] Hinv Hi);
        cbn; rewrite ?app_nil_r; try done; auto.
      * rewrite Hrl in *. unfold AllowRequest. by rewrite Hcmp.
      * intros ip0. lia.
    + apply (ginv_update rl0 s log i _ (mkG ip (AllowStore _)) (gs_rl s) [] Hinv Hi);
        cbn; rewrite ?app_nil_r; try done; auto.
      * rewrite Hrl in *. done.
      * intros ip0. lia.
  - (* AllowStore *)
    destruct Hm as (Hrl & -> & Hcmp). injection Hstep as <- <-.
    apply (ginv_update rl0 s log i _ (mkG ip (AllowUnlock true)) _ [] Hinv Hi);
      cbn; rewrite ?app_nil_r; try done; auto.
    + rewrite Hrl. unfold AllowRequest. by rewrite Hcmp.
    + intros ip0. lia.
  - (* AllowUnlock *)
    apply AllowRequest_pair in Hm as [Hb Hrl]. injection Hstep as <- <-.
    apply (ginv_update rl0 s log i _ (mkG ip (AllowRet b)) (gs_rl s)
             [(i, CallAllow ip)] Hinv Hi);
      cbn [gcritical g_pc g_ip]; try done; auto.
    + intros _. rewrite map_app. cbn [map snd]. by rewrite exec_snoc, step_allow_snd.
    + unfold ret_ok. cbn [g_pc g_ip]. exists (length log). split.
      * by rewrite lookup_app_r, Nat.sub_diag.
      * rewrite map_app. cbn [map snd].
        rewrite <- (length_map snd log), outcomes_snoc, step_allow_fst. by rewrite Hb.
    + intros ip0. rewrite map_app. cbn [map snd]. rewrite accepted_calls_snoc.
      unfold admitted. cbn [g_pc g_ip is_allow_of].
      destruct (decide (ip = ip0)) as [-> | Hne].
      * rewrite !bool_decide_eq_true_2 by done. rewrite <- Hb. destruct b; simpl; lia.
      * rewrite !bool_decide_eq_false_2 by done. destruct b; simpl; lia.
  - (* AllowRet *) done.
  - (* RemLock *)
    destruct (gs_locked s) eqn:Hl; [done |]. injection Hstep as <- <-.
    apply (ginv_update rl0 s log i _ (mkG ip RemRead) (gs_rl s) [] Hinv Hi);
      cbn; rewrite ?app_nil_r; try done; auto.
    intros ip0. lia.
  - (* RemRead *)
    injection Hstep as <- <-.
    apply (ginv_update rl0 s log i _ (mkG ip (RemSub _)) (gs_rl s) [] Hinv Hi);
      cbn; rewrite ?app_nil_r; try done; auto.
    + by rewrite Hm.
    + intros ip0. lia.
  - (* RemSub *)
    destruct Hm as [Hrl ->]. injection Hstep as <- <-.
    apply (ginv_update rl0 s log i _ (mkG ip (RemCheck _)) (gs_rl s) [] Hinv Hi);
      cbn; rewrite ?app_nil_r; try done; auto.
    + by rewrite Hrl.
    + intros ip0. lia.
  - (* RemCheck *)
    destruct Hm as [Hrl ->].
    destruct (_ <? 0) eqn:Hcmp; injection Hstep as <- <-.
    + apply (ginv_update rl0 s log i _ (mkG ip (RemUnlock 0)) (gs_rl s) [] Hinv Hi);
        cbn; rewrite ?app_nil_r; try done; auto.
      * split; [done |]. unfold GetRemainingRequests. by rewrite Hcmp.
      * intros ip0. lia.
    + apply (ginv_update rl0 s log i _ (mkG ip (RemUnlock _)) (gs_rl s) [] Hinv Hi);
        cbn; rewrite ?app_nil_r; try done; auto.
      * split; [done |]. unfold GetRemainingRequests. by rewrite Hcmp.
      * intros ip0. lia.
  - (* RemUnlock *)
    destruct Hm as [Hrl ->]. injection Hstep as <- <-.
    apply (ginv_update rl0 s log i _ (mkG ip (RemRet _)) (gs_rl s)
             [(i, CallRemaining ip)] Hinv Hi);
      cbn [gcritical g_pc g_ip]; try done; auto.
    + intros _. rewrite map_app. cbn [map snd]. by rewrite exec_snoc.
    + unfold ret_ok. cbn [g_pc g_ip]. exists (length log). split.
      * by rewrite lookup_app_r, Nat.sub_diag.
      * rewrite map_app. cbn [map snd].
        by rewrite <- (length_map snd log), outcomes_snoc.
    + intros ip0. rewrite map_app. cbn [map snd]. rewrite accepted_calls_snoc.
      unfold admitted. cbn. lia.
  - (* RemRet *) done.
  - (* TickWait *)
    injection Hstep as <- <-.
    apply (ginv_update rl0 s log i _ (mkG ip TickLock) (gs_rl s) [] Hinv Hi);
      cbn; rewrite ?app_nil_r; try done; auto.
    intros ip0. lia.
  - (* TickLock *)
    destruct (gs_locked s) eqn:Hl; [done |]. injection Hstep as <- <-.
    apply (ginv_update rl0 s log i _ (mkG ip TickAssign) (gs_rl s) [] Hinv Hi);
      cbn; rewrite ?app_nil_r; try done; auto.
    intros ip0. lia.
  - (* TickAssign *)
    injection Hstep as <- <-.
    apply (ginv_update rl0 s log i _ (mkG ip TickUnlock) _ [] Hinv Hi);
      cbn; rewrite ?app_nil_r; try done; auto.
    + by rewrite Hm.
    + intros ip0. lia.
  - (* TickUnlock *)
    injection Hstep as <- <-.
    apply (ginv_update rl0 s log i _ (mkG ip TickWait) (gs_rl s)
             [(i, Tick)] Hinv Hi);
      cbn [gcritical g_pc g_ip]; try done; auto.
    + intros _. rewrite map_app. cbn [map snd]. by rewrite exec_snoc.
    + intros ip0. rewrite map_app. cbn [map snd]. rewrite accepted_calls_snoc.
      unfold admitted. cbn. lia.
Qed.

Lemma grun_ginv rl0 sched s log :
  ginv rl0 s log -> ginv rl0 (fst (grun sched s log)) (snd (grun sched s log)).
Proof.
  revert s log. induction sched as [| i sched IH]; intros s log Hinv; [done |].
  cbn [grun]. destruct (gstep i s) as [[s' done_ops] |] eqn:E.
  - apply IH. by eapply gstep_ginv.
  - by apply IH.
Qed.

Lemma gstart_ginv rl0 pool :
  forallb gfresh pool = true -> ginv rl0 (gstart rl0 pool) [].
Proof.
  intros Hfresh.
  assert (forall j g, pool !! j = Some g -> gfresh g = true) as Hall.
  { intros j g Hj. rewrite forallb_forall in Hfresh. apply Hfresh.
    apply list_elem_of_In. by eapply list_elem_of_lookup_2. }
  constructor; cbn [gstart gs_locked gs_rl gs_pool map exec].
  - intros j g Hj. specialize (Hall j g Hj). unfold gfresh, gcritical in *.
    by destruct (g_pc g).
  - intros j g Hj. specialize (Hall j g Hj). unfold gfresh, mid_ok in *.
    by destruct (g_pc g).
  - done.
  - intros j g Hj. specialize (Hall j g Hj). unfold gfresh, ret_ok in *.
    by destruct (g_pc g).
  - intros ip. cbn [accepted_calls]. clear Hall.
    induction pool as [| g pool IH]; [done |].
    cbn [forallb] in Hfresh. apply andb_true_iff in Hfresh as [Hg Hfresh].
    cbn [gtally]. rewrite (IH Hfresh).
    unfold gfresh, admitted in *. by destruct (g_pc g).
Qed.

Lemma gafter_ginv rl0 pool sched :
  forallb gfresh pool = true ->
  ginv rl0 (fst (gafter sched rl0 pool)) (snd (gafter sched rl0 pool)).
Proof. intros Hfresh. apply grun_ginv. by apply gstart_ginv. Qed.

(** X14. Mutual exclusion: whatever goroutines call [AllowRequest] and
    [GetRemainingRequests] while the ticker loop runs, and however their
    steps interleave, at no instant are two goroutines between [Lock] and
    [Unlock], and the mutex is held exactly when one is. *)
Theorem mutual_exclusion
    (rl0 : RateLimiter) (pool : list goroutine) (sched : list nat) :
  forallb gfresh pool = true ->
  let s := fst (gafter sched rl0 pool) in
  (forall i j gi gj,
     gs_pool s !! i = Some gi -> gs_pool s !! j = Some gj ->
     gcritical gi = true -> gcritical gj = true -> i = j)
  /\ (gs_locked s = true
      <-> exists i g, gs_pool s !! i = Some g /\ gcritical g = true).
Proof.
  intros Hfresh s.
  pose proof (ginv_mutex _ _ _ (gafter_ginv rl0 pool sched Hfresh)) as Hm.
  fold s in Hm. split.
  - intros i j gi gj Hi Hj Hci Hcj.
    destruct (decide (i = j)) as [| Hne]; [done |].
    assert (j <> i) as Hne' by congruence.
    pose proof (others_outside _ _ i gi Hm Hi (or_introl Hci) j gj Hne' Hj).
    congruence.
  - split.
    + intros Hl. rewrite Hl in Hm. destruct Hm as (i & g & Hi & Hc & _). eauto.
    + intros (i & g & Hi & Hc). by eapply holder_locked.
Qed.

Lemma mutual_exclusion_witness :
  gs_locked
    (fst (gafter [0; 1; 2; 0; 2; 2; 1; 0]%nat mainLimiter
            [mkG "a" AllowLock; mkG "a" RemLock; mkG EmptyString TickWait]))
  = true.
Proof.
  apply (mutual_exclusion mainLimiter
           [mkG "a" AllowLock; mkG "a" RemLock; mkG EmptyString TickWait]
           [0; 1; 2; 0; 2; 2; 1; 0]%nat eq_refl).
  exists 0%nat. eexists. split; vm_compute; reflexivity.
Defined.

(** X15. Serialisability: in every interleaved execution the operations
    take effect one at a time, in the order in which their critical
    sections end.  Whenever the mutex is free the limiter is in the state
    that the sequential history of the completed operations produces, and
    every call that has returned has returned the outcome of its
    operation in that history. *)
Theorem executions_are_serial
    (rl0 : RateLimiter) (pool : list goroutine) (sched : list nat) :
  forallb gfresh pool = true ->
  let s := fst (gafter sched rl0 pool) in
  let log := snd (gafter sched rl0 pool) in
  (gs_locked s = false -> gs_rl s = exec (map snd log) rl0)
  /\ (forall i ip b,
        gs_pool s !! i = Some (mkG ip (AllowRet b)) ->
        exists k, log !! k = Some (i, CallAllow ip)
                  /\ outcomes (map snd log) rl0 !! k = Some (RetBool b))
  /\ (forall i ip z,
        gs_pool s !! i = Some (mkG ip (RemRet z)) ->
        exists k, log !! k = Some (i, CallRemaining ip)
                  /\ outcomes (map snd log) rl0 !! k = Some (RetInt z)).
Proof.
  intros Hfresh s log.
  destruct (gafter_ginv rl0 pool sched Hfresh) as [_ _ Hidle Hret _].
  fold s log in Hidle, Hret. split_and!.
  - done.
  - intros i ip b Hi. exact (Hret _ _ Hi).
  - intros i ip z Hi. exact (Hret _ _ Hi).
Qed.

Lemma executions_are_serial_witness :
  gs_rl (fst (gafter [0; 1; 0; 0; 2; 0; 0; 1; 1; 1; 1; 1; 2; 2; 2]%nat
                (mkRateLimiter ∅ 1 rateLimitWindow)
                [mkG "a" AllowLock; mkG "a" AllowLock; mkG EmptyString TickWait]))
  = exec [CallAllow "a"; CallAllow "a"; Tick] (mkRateLimiter ∅ 1 rateLimitWindow).
Proof.
  destruct (executions_are_serial (mkRateLimiter ∅ 1 rateLimitWindow)
              [mkG "a" AllowLock; mkG "a" AllowLock; mkG EmptyString TickWait]
              [0; 1; 0; 0; 2; 0; 0; 1; 1; 1; 1; 1; 2; 2; 2]%nat eq_refl) as (H & _ & _).
  rewrite H; reflexivity.
Defined.

(** X16. The quota holds under concurrency: started on a reachable
    limiter, in every interleaved execution, resets included, the calls
    [AllowRequest(ip)] that have returned [true] number at most
    [max(0, limit) - count] plus [max(0, limit)] per completed reset. *)
Theorem concurrent_quota
    (rl0 : RateLimiter) (pool : list goroutine) (sched : list nat) (ip : string) :
  reachable rl0 -> forallb gfresh pool = true ->
  let s := fst (gafter sched rl0 pool) in
  let log := snd (gafter sched rl0 pool) in
  gtally (admitted ip) (gs_pool s)
  <= (Z.max 0 (MaxRequests rl0) - count_of rl0 ip)
     + Z.max 0 (MaxRequests rl0) * ticks (map snd log).
Proof.
  intros Hr Hfresh s log. subst s log.
  rewrite (ginv_admitted _ _ _ (gafter_ginv rl0 pool sched Hfresh) ip).
  apply accepted_calls_bound;
    [by apply reachable_well_typed | by apply reachable_counts_bounded].
Qed.

Lemma concurrent_quota_witness :
  gtally (admitted "a")
    (gs_pool (fst (gafter [0; 1; 0; 0; 2; 0; 0; 1; 1; 1; 1; 1; 2; 2; 2]%nat
                     (mkRateLimiter ∅ 1 rateLimitWindow)
                     [mkG "a" AllowLock; mkG "a" AllowLock; mkG EmptyString TickWait])))
  <= (Z.max 0 1 - 0) + Z.max 0 1 * 1.
Proof.
  assert (reachable (mkRateLimiter ∅ 1 rateLimitWindow)) as Hr.
  { apply (reach_new 1 rateLimitWindow);
      [apply is_int_literal; vm_compute; split; discriminate ..| reflexivity]. }
  apply (concurrent_quota (mkRateLimiter ∅ 1 rateLimitWindow)
           [mkG "a" AllowLock; mkG "a" AllowLock; mkG EmptyString TickWait]
           [0; 1; 0; 0; 2; 0; 0; 1; 1; 1; 1; 1; 2; 2; 2]%nat "a" Hr eq_refl).
Defined.

(** X17. No deadlock: at every instant of every execution, as long as a
    call has not returned or a ticker loop runs, some goroutine can take
    a step; the holder of the mutex always can. *)
Theorem never_deadlocks
    (rl0 : RateLimiter) (pool : list goroutine) (sched : list nat) :
  forallb gfresh pool = true ->
  let s := fst (gafter sched rl0 pool) in
  (exists i g, gs_pool s !! i = Some g /\ gfinished g = false) ->
  exists i s' done_ops, gstep i s = Some (s', done_ops).
Proof.
  intros Hfresh s (i & [ip p] & Hi & Hnf).
  pose proof (ginv_mutex _ _ _ (gafter_ginv rl0 pool sched Hfresh)) as Hm.
  fold s in Hm. destruct (gs_locked s) eqn:Hl.
  - destruct Hm as (h & [hip hp] & Hh & Hc & _).
    exists h. unfold gstep. rewrite Hh, Hl.
    destruct hp; try done; repeat case_match; by do 2 eexists.
  - specialize (Hm _ _ Hi).
    exists i. unfold gstep. rewrite Hi, Hl.
    destruct p; try done; by do 2 eexists.
Qed.

Lemma never_deadlocks_witness :
  exists i s' done_ops,
    gstep i (fst (gafter [0; 1; 2; 0; 2; 2; 1; 0]%nat mainLimiter
                    [mkG "a" AllowLock; mkG "a" RemLock; mkG EmptyString TickWait]))
    = Some (s', done_ops).
Proof.
  apply (never_deadlocks mainLimiter
           [mkG "a" AllowLock; mkG "a" RemLock; mkG EmptyString TickWait]
           [0; 1; 2; 0; 2; 2; 1; 0]%nat eq_refl).
  exists 1%nat. eexists. split; vm_compute; reflexivity.
Defined.
